(** * Task queue and notification pipeline of the presight-exercise server

    A shallow embedding of
      - [server/src/queue/InMemoryQueue.ts]   (class [InMemoryQueue]),
      - [server/src/routes/api.ts]            (handler of [POST /process]),
      - [server/src/workers/processWorker.ts] (the worker's reply),
      - [server/src/index.ts]                 (the Socket.IO handlers),
    followed by the properties of the queue contract that hold on it and
    the ones that do not. *)

From Stdlib Require Import ZArith Ascii.
From stdpp Require Import gmap strings list fin_maps pretty.

(** ** Promises and the [async] monad

    Every method of the queue is [async]: it runs to completion on the
    state of the object it belongs to and settles a promise, either
    fulfilled with a value or rejected with a reason.  [Async S A] is that
    computation over a state [S]; [await] is the bind, and a rejection
    skips the rest of the function body (the state written so far stays). *)

Inductive Settled (A : Type) : Type :=
| Fulfilled (a : A)
| Rejected (reason : string).
Arguments Fulfilled {A} a.
Arguments Rejected {A} reason.

Definition Async (S A : Type) : Type := S → Settled A * S.

Definition resolve {S A} (a : A) : Async S A := λ s, (Fulfilled a, s).

Definition await {S A B} (m : Async S A) (k : A → Async S B) : Async S B :=
  λ s, match m s with
       | (Fulfilled a, s') => k a s'
       | (Rejected e, s') => (Rejected e, s')
       end.

(** [try { m } catch (_error) { h }] *)
Definition try_catch {S A} (m : Async S A) (h : string → Async S A) : Async S A :=
  λ s, match m s with
       | (Fulfilled a, s') => (Fulfilled a, s')
       | (Rejected e, s') => h e s'
       end.

(** reading and writing the state of [this] *)
Definition get_state {S} : Async S S := λ s, (Fulfilled s, s).
Definition put_state {S} (s' : S) : Async S unit := λ _, (Fulfilled tt, s').

(** final state and settled value of a computation *)
Definition state_after {S A} (m : Async S A) (s : S) : S := (m s).2.
Definition settles_as {S A} (m : Async S A) (s : S) : Settled A := (m s).1.

Notation "x ⇐ m ;; k" := (await m (λ x, k))
  (at level 100, m at next level, right associativity,
   format "'[v' x  ⇐  m  ;;  '/' k ']'").
Notation "m ;;; k" := (await m (λ _, k))
  (at level 100, right associativity,
   format "'[v' m  ;;;  '/' k ']'").

(** ** Values of type [unknown]

    The payload of a queue record is typed [unknown]; the values the
    server stores there are [undefined], object literals, dates and
    strings. *)

#[warnings="-register-all"]
Inductive JsValue : Type :=
| JsUndefined
| JsString (s : string)
| JsDate (ms : Z)
| JsObject (fields : list (string * JsValue)).

(** ** InMemoryQueue.ts *)

Module InMemoryQueue.

Inductive Status : Type := pending | processing | completed | failed.

Global Instance Status_eq_dec : EqDecision Status.
Proof. solve_decision. Defined.

(** The record type of the private [queue] map:
    [{ status; data?: unknown; result?: string; error?: string }].
    An optional field that was never assigned is [None]. *)
Record Item : Type := mkItem {
  status : Status;
  data : JsValue;
  result : option string;
  error : option string
}.

(** [private queue: Map<string, {...}> = new Map()] *)
Abbreviation Table := (gmap string Item).

Definition new_queue : Table := ∅.

(** [async initialize(): Promise<void> { }] *)
Definition initialize : Async Table unit := resolve tt.

(** [this.queue.set(requestId, { status: 'pending', data })] *)
Definition enqueue (requestId : string) (d : JsValue) : Async Table unit :=
  q ⇐ get_state ;;
  put_state (<[requestId := mkItem pending d None None]> q).

(** [const item = this.queue.get(requestId);
     return item?.status || 'pending';]
    Every status is a non-empty string, hence truthy: the right operand
    of [||] is taken exactly when [item] is [undefined]. *)
Definition getStatus (requestId : string) : Async Table Status :=
  q ⇐ get_state ;;
  match q !! requestId with
  | Some item => resolve (status item)
  | None => resolve pending
  end.

(** [if (item) { item.status = 'completed'; item.result = result; }]
    The map holds the object itself, so the two assignments update the
    record stored under [requestId]; [data] and [error] are not touched. *)
Definition complete (requestId : string) (r : string) : Async Table unit :=
  q ⇐ get_state ;;
  match q !! requestId with
  | Some item =>
      put_state (<[requestId := mkItem completed (data item) (Some r) (error item)]> q)
  | None => resolve tt
  end.

(** [if (item) { item.status = 'failed'; item.error = error; }] *)
Definition fail (requestId : string) (e : string) : Async Table unit :=
  q ⇐ get_state ;;
  match q !! requestId with
  | Some item =>
      put_state (<[requestId := mkItem failed (data item) (result item) (Some e)]> q)
  | None => resolve tt
  end.

(** [this.queue.clear()] *)
Definition cleanup : Async Table unit := put_state ∅.

(** *** Sequences of calls on one queue object *)

Inductive Call : Type :=
| CInitialize
| CEnqueue (requestId : string) (d : JsValue)
| CGetStatus (requestId : string)
| CComplete (requestId : string) (r : string)
| CFail (requestId : string) (e : string)
| CCleanup.

Definition call (c : Call) : Async Table unit :=
  match c with
  | CInitialize => initialize
  | CEnqueue i d => enqueue i d
  | CGetStatus i => (getStatus i ;;; resolve tt)
  | CComplete i r => complete i r
  | CFail i e => fail i e
  | CCleanup => cleanup
  end.

(** the table after a list of calls, made one after the other *)
Definition run (cs : list Call) (q : Table) : Table :=
  foldl (λ q c, state_after (call c) q) q cs.

(** what a caller of [getStatus] observes on table [q] *)
Definition observed (requestId : string) (q : Table) : Settled Status :=
  settles_as (getStatus requestId) q.

(** a call that neither enqueues [requestId] again nor clears the table *)
Definition keeps (requestId : string) (c : Call) : bool :=
  match c with
  | CEnqueue j _ => bool_decide (j ≠ requestId)
  | CCleanup => false
  | CInitialize | CGetStatus _ | CComplete _ _ | CFail _ _ => true
  end.

(** the statuses [getStatus] reports for [requestId] after each call of
    a sequence, in order *)
Fixpoint trace (requestId : string) (cs : list Call) (q : Table) : list (Settled Status) :=
  match cs with
  | [] => []
  | c :: cs' =>
      let q' := state_after (call c) q in
      observed requestId q' :: trace requestId cs' q'
  end.

(** the three fields of a record that tell the outcome of its task *)
Definition outcome (requestId : string) (q : Table)
  : option (Status * option string * option string) :=
  (λ item, (status item, result item, error item)) <$> q !! requestId.

(** What every call keeps true of a record: pending goes with neither
    result nor error, completed with a result, failed with an error,
    and no record is in status processing. *)
Definition settled_fields (item : Item) : Prop :=
  match status item with
  | pending => result item = None ∧ error item = None
  | processing => False
  | completed => is_Some (result item)
  | failed => is_Some (error item)
  end.

Definition terminal (s : Status) : bool :=
  match s with
  | completed | failed => true
  | pending | processing => false
  end.

End InMemoryQueue.

(** ** routes/api.ts: the admission endpoint *)

Module Api.
Import InMemoryQueue.

(** What the handler wrote on [res]: the status code (200 unless
    [res.status] was called) and the JSON body. *)
Record Response : Type := mkResponse {
  code : Z;
  body : JsValue
}.

(** [`req_${Date.now()}_${Math.random().toString(36).substr(2, 9)}`]
    [now] is the value of [Date.now()] and [rnd36] the string
    [Math.random().toString(36)], both read from the environment. *)
Definition make_request_id (now : Z) (rnd36 : string) : string :=
  "req_" +:+ pretty now +:+ "_" +:+ String.substring 2 9 rnd36.

(** [router.post('/process', async (_req, res) => { try {...} catch {...} })]
    [date] is the value of [new Date()], in milliseconds. *)
Definition post_process (now : Z) (rnd36 : string) (date : Z) : Async Table Response :=
  try_catch
    (let requestId := make_request_id now rnd36 in
     enqueue requestId (JsObject [("timestamp", JsDate date)]) ;;;
     resolve (mkResponse 200
                (JsObject [("id", JsString requestId); ("status", JsString "pending")])))
    (λ _error,
     resolve (mkResponse 500 (JsObject [("error", JsString "Internal server error")]))).

(** does [s] have no underscore?  ([Date.now()] prints as such a string) *)
Fixpoint underscore_free (s : string) : bool :=
  match s with
  | EmptyString => true
  | String c s' => if Ascii.eqb c "_"%char then false else underscore_free s'
  end.

End Api.

(** ** workers/processWorker.ts *)

Module ProcessWorker.

(** [interface WorkerMessage { id: string; data: unknown }] *)
Record WorkerMessage : Type := mkWorkerMessage {
  msg_id : string;
  msg_data : JsValue
}.

(** [interface WorkerResponse { id: string; result: string }] *)
Record WorkerResponse : Type := mkWorkerResponse {
  resp_id : string;
  resp_result : string
}.

(** The reply posted two seconds after [message] arrived; [iso] is
    [new Date().toISOString()] at that moment. *)
Definition reply (message : WorkerMessage) (iso : string) : WorkerResponse :=
  mkWorkerResponse (msg_id message)
    ("Processed result for request " +:+ msg_id message +:+ " at " +:+ iso).

End ProcessWorker.

(** ** index.ts: the Socket.IO connection handler

    The module-level objects of the process are gathered in one record.
    A [Worker] object is identified by its creation rank.  Three fields
    record the calls made on objects of the runtime: [posted] the
    [worker.postMessage] calls, [terminated] the [worker.terminate] calls
    and [inbox] what [io.emit] put on the wire of each connected socket.

    The promises awaited by the handlers are settled without any I/O, so
    a handler's continuations run as microtasks before the next event is
    taken from the loop: one event is handled in one step. *)

Module Server.
Import InMemoryQueue ProcessWorker.

(** value type of [requestQueue]: [{ worker: Worker; socketId?: string }] *)
Record Tracked : Type := mkTracked {
  worker : nat;
  socketId : option string
}.

(** payload of the outbound [process-result] event *)
Record ProcessResult : Type := mkProcessResult {
  id : string;
  status : string;
  result : string
}.

Record State : Type := mkState {
  queue : gmap string Item;               (* [services.queue] *)
  requestQueue : gmap string Tracked;     (* active workers *)
  spawned : nat;                          (* [new Worker] calls so far *)
  listeners : gmap nat string;            (* worker ↦ [requestId] of its closures *)
  posted : list (nat * WorkerMessage);    (* [worker.postMessage] *)
  terminated : list nat;                  (* [worker.terminate] *)
  connected : gset string;                (* sockets of [io] *)
  inbox : list (string * (string * ProcessResult)); (* socket, event, payload *)
  console : list string                   (* [console.error] *)
}.

Definition boot : State :=
  mkState ∅ ∅ 0 ∅ [] [] ∅ [] [].

(** a call on the shared queue object *)
Definition on_queue {A} (m : Async Table A) : Async State A :=
  λ st, let '(r, q) := m (queue st) in
        (r, mkState q (requestQueue st) (spawned st) (listeners st) (posted st)
              (terminated st) (connected st) (inbox st) (console st)).

(** [new Worker(workerPath, { execArgv: [] })] *)
Definition new_Worker : Async State nat :=
  λ st, (Fulfilled (spawned st),
         mkState (queue st) (requestQueue st) (S (spawned st)) (listeners st) (posted st)
           (terminated st) (connected st) (inbox st) (console st)).

(** [requestQueue.set(requestId, entry)] *)
Definition requestQueue_set (requestId : string) (entry : Tracked) : Async State unit :=
  λ st, (Fulfilled tt,
         mkState (queue st) (<[requestId := entry]> (requestQueue st)) (spawned st)
           (listeners st) (posted st) (terminated st) (connected st) (inbox st) (console st)).

(** [requestQueue.delete(requestId)] *)
Definition requestQueue_delete (requestId : string) : Async State unit :=
  λ st, (Fulfilled tt,
         mkState (queue st) (delete requestId (requestQueue st)) (spawned st)
           (listeners st) (posted st) (terminated st) (connected st) (inbox st) (console st)).

(** [worker.postMessage(message)] *)
Definition postMessage (w : nat) (message : WorkerMessage) : Async State unit :=
  λ st, (Fulfilled tt,
         mkState (queue st) (requestQueue st) (spawned st) (listeners st)
           (posted st ++ [(w, message)]) (terminated st) (connected st) (inbox st) (console st)).

(** [worker.on('message', ...); worker.on('error', ...)]: the two
    closures registered on [w] capture [requestId] (and [w] itself). *)
Definition listen (w : nat) (requestId : string) : Async State unit :=
  λ st, (Fulfilled tt,
         mkState (queue st) (requestQueue st) (spawned st) (<[w := requestId]> (listeners st))
           (posted st) (terminated st) (connected st) (inbox st) (console st)).

(** [worker.terminate()] *)
Definition terminate (w : nat) : Async State unit :=
  λ st, (Fulfilled tt,
         mkState (queue st) (requestQueue st) (spawned st) (listeners st) (posted st)
           (terminated st ++ [w]) (connected st) (inbox st) (console st)).

(** [io.emit(event, payload)]: one copy for every socket connected now *)
Definition io_emit (event : string) (payload : ProcessResult) : Async State unit :=
  λ st, (Fulfilled tt,
         mkState (queue st) (requestQueue st) (spawned st) (listeners st) (posted st)
           (terminated st) (connected st)
           (inbox st ++ ((λ s, (s, (event, payload))) <$> elements (connected st)))
           (console st)).

(** [console.error(...)]: the log keeps the label and the message of
    what was printed, not the stack that is printed with an [Error]. *)
Definition console_error (line : string) : Async State unit :=
  λ st, (Fulfilled tt,
         mkState (queue st) (requestQueue st) (spawned st) (listeners st) (posted st)
           (terminated st) (connected st) (inbox st) (console st ++ [line])).

(** [io.on('connection', (socket) => ...)] and [socket.on('disconnect', ...)] *)
Definition on_connection (socket : string) : Async State unit :=
  λ st, (Fulfilled tt,
         mkState (queue st) (requestQueue st) (spawned st) (listeners st) (posted st)
           (terminated st) ({[socket]} ∪ connected st) (inbox st) (console st)).

Definition on_disconnect (socket : string) : Async State unit :=
  λ st, (Fulfilled tt,
         mkState (queue st) (requestQueue st) (spawned st) (listeners st) (posted st)
           (terminated st) (connected st ∖ {[socket]}) (inbox st) (console st)).

(** [socket.on('process-request', async (data: { id: string }) => {...})]
    The body of [if (status === 'pending')] is empty: what follows it
    runs whatever the status is. *)
Definition on_process_request (socket : string) (data_id : string) : Async State unit :=
  let requestId := data_id in
  status ⇐ on_queue (getStatus requestId) ;;
  (if decide (status = pending) then resolve tt else resolve tt) ;;;
  w ⇐ new_Worker ;;
  requestQueue_set requestId (mkTracked w (Some socket)) ;;;
  postMessage w (mkWorkerMessage requestId (JsObject [])) ;;;
  listen w requestId.

(** [worker.on('message', async (response) => {...})], closure of [w] *)
Definition on_worker_message (w : nat) (response : WorkerResponse) : Async State unit :=
  on_queue (complete (resp_id response) (resp_result response)) ;;;
  io_emit "process-result"
    (mkProcessResult (resp_id response) "completed" (resp_result response)) ;;;
  requestQueue_delete (resp_id response) ;;;
  terminate w.

(** [worker.on('error', async (error) => {...})], closure of [requestId];
    [message] is [error.message]. *)
Definition on_worker_error (requestId : string) (message : string) : Async State unit :=
  console_error ("Worker error: " +:+ message) ;;;
  on_queue (fail requestId message) ;;;
  io_emit "process-result"
    (mkProcessResult requestId "error" ("Error: " +:+ message)) ;;;
  requestQueue_delete requestId.

(** *** Events of the loop *)

Inductive Event : Type :=
| Connection (socket : string)
| Disconnect (socket : string)
| ProcessRequest (socket : string) (data_id : string)
| WorkerMessageEv (w : nat) (response : WorkerResponse)
| WorkerErrorEv (w : nat) (message : string).

(** An event of a worker reaches the closures registered on it, if any. *)
Definition handle (ev : Event) : Async State unit :=
  match ev with
  | Connection s => on_connection s
  | Disconnect s => on_disconnect s
  | ProcessRequest s i => on_process_request s i
  | WorkerMessageEv w response =>
      st ⇐ get_state ;;
      match listeners st !! w with
      | Some _ => on_worker_message w response
      | None => resolve tt
      end
  | WorkerErrorEv w message =>
      st ⇐ get_state ;;
      match listeners st !! w with
      | Some requestId => on_worker_error requestId message
      | None => resolve tt
      end
  end.

Definition run (evs : list Event) (st : State) : State :=
  foldl (λ st ev, state_after (handle ev) st) st evs.

(** the payloads of [event] that reached [socket], oldest first *)
Definition received (socket event : string) (st : State) : list ProcessResult :=
  omap (λ '(s, (e, p)), if decide (s = socket ∧ e = event) then Some p else None)
       (inbox st).

(** has the server called [terminate] on worker [w]? *)
Definition is_terminated (w : nat) (st : State) : bool :=
  bool_decide (w ∈ terminated st).

(** is a worker tracked under [requestId]? *)
Definition is_tracked (requestId : string) (st : State) : bool :=
  bool_decide (is_Some (requestQueue st !! requestId)).

End Server.

From stdpp Require Import sorting.

(** ** Calls and the ids they are made for *)

Module CallTargets.
Import InMemoryQueue.

(** the id a call is made for; [initialize] and [cleanup] have none *)
Definition target (c : Call) : option string :=
  match c with
  | CEnqueue i _ | CGetStatus i | CComplete i _ | CFail i _ => Some i
  | CInitialize | CCleanup => None
  end.

(** a call that does not write under [requestId]: a read, or a write made
    for another id; [cleanup] writes everywhere *)
Definition elsewhere (requestId : string) (c : Call) : bool :=
  match c with
  | CEnqueue j _ | CComplete j _ | CFail j _ => bool_decide (j ≠ requestId)
  | CInitialize | CGetStatus _ => true
  | CCleanup => false
  end.

(** the record a call leaves under its own id, from the one it found *)
Definition written (c : Call) (found : option Item) : option Item :=
  match c with
  | CEnqueue _ d => Some (mkItem pending d None None)
  | CComplete _ r => (λ item, mkItem completed (data item) (Some r) (error item)) <$> found
  | CFail _ e => (λ item, mkItem failed (data item) (result item) (Some e)) <$> found
  | CInitialize | CGetStatus _ | CCleanup => found
  end.

(** the calls made since [requestId] was last admitted: the history of
    an id starts anew when the id is enqueued and when the table is
    cleared *)
Definition since_admission (requestId : string) (cs : list Call) : list Call :=
  foldl (λ history c,
           match c with
           | CEnqueue j _ => if decide (j = requestId) then [] else history ++ [c]
           | CCleanup => []
           | CInitialize | CGetStatus _ | CComplete _ _ | CFail _ _ => history ++ [c]
           end) [] cs.

(** the ids a sequence of calls enqueues *)
Definition enqueued (cs : list Call) : gset string :=
  list_to_set (omap (λ c, match c with CEnqueue i _ => Some i | _ => None end) cs).

End CallTargets.

(** ** Numbers and arrays of the runtime

    [page], [pageSize] and [limit] range over the whole numbers among
    the values of a JavaScript number: what the code does with a
    fraction, an infinity or [NaN] is not covered here, and every
    statement about pages below is one about whole page numbers and
    whole page sizes.  Array lengths are below 2^32, and for such a
    dividend the ceiling of the double quotient is the ceiling of the
    exact one. *)

Module Js.
Local Open Scope Z_scope.

Inductive Number : Type :=
| Num (z : Z)
| PosInfinity
| NaN.

(** [Math.ceil(n / d)] for an array length [n]: a division by zero gives
    [Infinity], or [NaN] when [n] is zero as well; a negative zero prints
    and compares as [0]. *)
Definition ceil_div (n : nat) (d : Z) : Number :=
  if decide (d = 0) then (if decide (n = 0%nat) then NaN else PosInfinity)
  else Num (- ((- Z.of_nat n) `div` d)).

(** [Array.prototype.slice(start, end)]: a negative index counts from
    the end of the array, and both bounds are clamped to it. *)
Definition slice {A} (start finish : Z) (l : list A) : list A :=
  let len := Z.of_nat (length l) in
  let k := if decide (start < 0) then Z.max (len + start) 0 else Z.min start len in
  let final := if decide (finish < 0) then Z.max (len + finish) 0 else Z.min finish len in
  take (Z.to_nat (final - k)) (drop (Z.to_nat k) l).

End Js.

(** ** types/index.ts *)

Module Types.

Record Person : Type := mkPerson {
  avatar : string;
  first_name : string;
  last_name : string;
  age : Z;
  nationality : string;
  hobbies : list string
}.

(** [PaginatedResponse<Person>] *)
Module Paginated.
Record t : Type := mk {
  data : list Person;
  total : nat;
  page : Z;
  pageSize : Z;
  totalPages : Js.Number
}.
End Paginated.

(** the parameter of [IStorage.getPeople], for whole numbers [page] and
    [pageSize]; an optional field that is missing is [None] *)
Module Query.
Record t : Type := mk {
  page : Z;
  pageSize : Z;
  hobbies : option (list string);
  nationalities : option (list string);
  search : option string
}.
End Query.

End Types.

(** What the server takes from the runtime and from faker:
    [String.prototype.toLowerCase], [String.prototype.includes]
    ([includes s t] is [s.includes(t)]) and the person that the draws of
    iteration [i] of the generation loop make up. *)
Class Runtime : Type := {
  toLowerCase : string → string;
  includes : string → string → bool;
  faker : nat → Types.Person
}.

(** ** data/mockData.ts *)

Module MockData.
Import Types.

(** [let cachedData: Person[] | null = null]; an array, even an empty
    one, is truthy. *)
Definition generateMockData `{Runtime} (count : option Z) (cachedData : option (list Person))
  : list Person * option (list Person) :=
  match cachedData with
  | Some cached => (cached, Some cached)
  | None =>
      let data := faker <$> seq 0 (Z.to_nat (default 1000%Z count)) in
      (data, Some data)
  end.

(** [counts.set(key, (counts.get(key) || 0) + 1)] on a [Map], which
    keeps its keys in the order of their first insertion *)
Fixpoint bump (key : string) (counts : list (string * nat)) : list (string * nat) :=
  match counts with
  | [] => [(key, 1%nat)]
  | (k, n) :: rest =>
      if decide (k = key) then (k, S n) :: rest else (k, n) :: bump key rest
  end.

(** [entries.sort((a, b) => b[1] - a[1])]: the sort is stable, so its
    result is the one of this insertion sort, which puts an entry before
    the entries to its right that do not count more. *)
Fixpoint put_in_order (e : string * nat) (sorted : list (string * nat))
  : list (string * nat) :=
  match sorted with
  | [] => [e]
  | x :: rest =>
      if decide (e.2 < x.2)%nat then x :: put_in_order e rest else e :: x :: rest
  end.

Definition sort_by_count (entries : list (string * nat)) : list (string * nat) :=
  foldr put_in_order [] entries.

Definition getTopHobbies (data : list Person) (limit : option Z) : list string :=
  let hobbyCounts :=
    foldl (λ counts person, foldl (λ counts hobby, bump hobby counts) counts (hobbies person))
          [] data in
  (Js.slice 0 (default 20%Z limit) (sort_by_count hobbyCounts)).*1.

Definition getTopNationalities (data : list Person) (limit : option Z) : list string :=
  let nationalityCounts :=
    foldl (λ counts person, bump (nationality person) counts) [] data in
  (Js.slice 0 (default 20%Z limit) (sort_by_count nationalityCounts)).*1.

(** how often [key] occurs in a list of keys *)
Definition occurrences (key : string) (keys : list string) : nat :=
  length (List.filter (λ k, bool_decide (k = key)) keys).

(** all hobbies of all people, in the order the nested loops visit them *)
Definition all_hobbies (data : list Person) : list string :=
  data ≫= hobbies.

End MockData.

(** ** storage/InMemoryStorage.ts *)

Module InMemoryStorage.
Import Types MockData.
Local Open Scope Z_scope.

(** the [data] field of the storage object, and the cache of the
    mockData module it is filled from *)
Record Store : Type := mkStore {
  data : list Person;
  cachedData : option (list Person)
}.

Definition new_storage : Store := mkStore [] None.

(** [this.data = generateMockData(1000)] *)
Definition initialize `{Runtime} : Async Store unit :=
  st ⇐ get_state ;;
  let '(generated, cache) := generateMockData (Some 1000) (cachedData st) in
  put_state (mkStore generated cache).

(** the three filters of [getPeople], applied in turn; a filter that is
    missing, empty or the empty string is skipped *)
Definition by_search `{Runtime} (search : option string) (people : list Person) : list Person :=
  match search with
  | Some s =>
      if decide (s = "") then people
      else
        let searchLower := toLowerCase s in
        List.filter (λ person,
                       includes (toLowerCase (first_name person)) searchLower
                       || includes (toLowerCase (last_name person)) searchLower)
                    people
  | None => people
  end.

Definition by_hobbies (wanted : option (list string)) (people : list Person) : list Person :=
  match wanted with
  | Some (h :: hs) =>
      List.filter (λ person,
                     existsb (λ hobby, bool_decide (hobby ∈ hobbies person)) (h :: hs))
                  people
  | Some [] | None => people
  end.

Definition by_nationalities (wanted : option (list string)) (people : list Person)
  : list Person :=
  match wanted with
  | Some (n :: ns) =>
      List.filter (λ person, bool_decide (nationality person ∈ n :: ns)) people
  | Some [] | None => people
  end.

Definition filtered `{Runtime} (params : Query.t) (people : list Person) : list Person :=
  by_nationalities (Query.nationalities params)
    (by_hobbies (Query.hobbies params)
       (by_search (Query.search params) people)).

Definition getPeople `{Runtime} (params : Query.t) : Async Store Paginated.t :=
  st ⇐ get_state ;;
  let filteredData := filtered params (data st) in
  let startIndex := (Query.page params - 1) * Query.pageSize params in
  let endIndex := startIndex + Query.pageSize params in
  let paginatedData := Js.slice startIndex endIndex filteredData in
  let totalPages := Js.ceil_div (length filteredData) (Query.pageSize params) in
  resolve (Paginated.mk paginatedData (length filteredData)
             (Query.page params) (Query.pageSize params) totalPages).

(** [{ hobbies: getTopHobbies(this.data, 20),
       nationalities: getTopNationalities(this.data, 20) }] *)
Record FilterOptions : Type := mkFilterOptions {
  top_hobbies : list string;
  top_nationalities : list string
}.

Definition getFilterOptions : Async Store FilterOptions :=
  st ⇐ get_state ;;
  resolve (mkFilterOptions (getTopHobbies (data st) (Some 20))
                           (getTopNationalities (data st) (Some 20))).

(** [this.data = []] *)
Definition cleanup : Async Store unit :=
  st ⇐ get_state ;;
  put_state (mkStore [] (cachedData st)).

End InMemoryStorage.

(** ** Reading the answers of [getPeople] *)

Module PeopleQueries.
Import Types InMemoryStorage.

(** a person fits a query when each filter that is set (not missing, not
    empty) accepts the person *)
Definition fits `{Runtime} (params : Query.t) (person : Person) : Prop :=
  match Query.search params with
  | Some s =>
      s = "" ∨ includes (toLowerCase (first_name person)) (toLowerCase s) = true
             ∨ includes (toLowerCase (last_name person)) (toLowerCase s) = true
  | None => True
  end ∧
  match Query.hobbies params with
  | Some hs => hs = [] ∨ Exists (λ hobby, hobby ∈ hobbies person) hs
  | None => True
  end ∧
  match Query.nationalities params with
  | Some ns => ns = [] ∨ nationality person ∈ ns
  | None => True
  end.

Global Instance fits_dec `{Runtime} params person : Decision (fits params person).
Proof.
  unfold fits.
  destruct (Query.search params), (Query.hobbies params), (Query.nationalities params);
    apply _.
Defined.

(** the stored people that fit a query, in the order of the store *)
Definition fitting `{Runtime} (params : Query.t) (st : Store) : list Person :=
  List.filter (λ person, bool_decide (fits params person)) (data st).

(** the same query for another page *)
Definition on_page (p : Z) (params : Query.t) : Query.t :=
  Query.mk p (Query.pageSize params) (Query.hobbies params)
           (Query.nationalities params) (Query.search params).

(** the [data] and the [totalPages] of the answer to a query ([getPeople]
    always fulfils, see [getPeople_serves_the_fitting_people]) *)
Definition page_of `{Runtime} (params : Query.t) (st : Store) : list Person :=
  match settles_as (getPeople params) st with
  | Fulfilled r => Paginated.data r
  | Rejected _ => []
  end.

Definition total_pages_of `{Runtime} (params : Query.t) (st : Store) : option Js.Number :=
  match settles_as (getPeople params) st with
  | Fulfilled r => Some (Paginated.totalPages r)
  | Rejected _ => None
  end.

End PeopleQueries.

(** ** The count-sort-cut pipeline of the two top lists *)

Module Counting.
Import MockData.

(** the [Map] of counts after the keys were visited in order *)
Definition tally (keys : list string) : list (string * nat) :=
  foldl (λ counts key, bump key counts) [] keys.

(** [Array.from(counts.entries()).sort(...).slice(0, limit).map(([key]) => key)] *)
Definition top (keys : list string) (limit : Z) : list string :=
  (Js.slice 0 limit (sort_by_count (tally keys))).*1.

End Counting.

(** ** routes/api.ts: the listing of people *)

Module PeopleApi.
Import Types InMemoryStorage.
Local Open Scope Z_scope.

(** a value of [req.query]: missing, given once, or given several times *)
Inductive QueryValue : Type :=
| QAbsent
| QString (s : string)
| QArray (l : list string).

(** [page] and [pageSize] stand for [Number(...)] of the text that was
    given, for the texts that denote a whole number.  Each of the other
    three parameters is missing, a string, or an array of strings when
    the parameter was given several times (objects, which the query
    parser builds for bracketed names, are not covered). *)
Record PeopleQuery : Type := mkPeopleQuery {
  q_page : option Z;
  q_pageSize : option Z;
  q_hobbies : QueryValue;
  q_nationalities : QueryValue;
  q_search : QueryValue
}.

(** what the handler wrote on [res] *)
Inductive Reply (A : Type) : Type :=
| Json (code : Z) (body : A)
| Failure (code : Z) (body : JsValue).
Arguments Json {A} code body.
Arguments Failure {A} code body.

(** [Array.isArray(p) ? p : p ? [p] : []]; the empty string is falsy *)
Definition as_array (p : QueryValue) : list string :=
  match p with
  | QArray l => l
  | QString s => if decide (s = "") then [] else [s]
  | QAbsent => []
  end.

(** [xs.length > 0 ? xs : undefined] *)
Definition or_undefined (xs : list string) : option (list string) :=
  match xs with
  | [] => None
  | _ :: _ => Some xs
  end.

(** [storage.getPeople({ ..., search: search as string || undefined })].
    The cast checks nothing: a [search] given several times is an array,
    which is truthy, reaches [getPeople] as it is, and there
    [params.search.toLowerCase()] throws a [TypeError] before anything
    is written; the promise is rejected. *)
Definition getPeople_with_search `{Runtime} (page pageSize : Z)
    (hobbies nationalities : option (list string)) (search : QueryValue)
  : Async Store Paginated.t :=
  match search with
  | QArray _ =>
      λ st, (Rejected "TypeError: params.search.toLowerCase is not a function", st)
  | QString s =>
      getPeople (Query.mk page pageSize hobbies nationalities
                   (if decide (s = "") then None else Some s))
  | QAbsent =>
      getPeople (Query.mk page pageSize hobbies nationalities None)
  end.

(** [router.get('/people', async (req, res) => { try {...} catch {...} })];
    a missing [search] defaults to the empty string *)
Definition get_people `{Runtime} (query : PeopleQuery) : Async Store (Reply Paginated.t) :=
  try_catch
    (let page := default 1 (q_page query) in
     let pageSize := default 20 (q_pageSize query) in
     let search := match q_search query with QAbsent => QString "" | given => given end in
     let hobbies := as_array (q_hobbies query) in
     let nationalities := as_array (q_nationalities query) in
     result ⇐ getPeople_with_search page pageSize
                (or_undefined hobbies) (or_undefined nationalities) search ;;
     resolve (Json 200 result))
    (λ _error,
     resolve (Failure 500 (JsObject [("error", JsString "Internal server error")]))).

End PeopleApi.

(** ** worker_threads: how a worker ends

    [index.ts] relies on the contract of Node's [worker_threads]: a worker
    posts its message while its thread runs, and ['error'] is emitted on
    the [Worker] object only when the thread has thrown an uncaught
    exception, by which time the runtime has terminated the thread. *)

Module WorkerThreads.
Import ProcessWorker.

(** the server objects, and the workers whose thread ended on an
    uncaught exception *)
Record World : Type := mkWorld {
  server : Server.State;
  died : gset nat
}.

(** what a worker does with the message it was posted: it answers, or
    it throws *)
Inductive Outcome : Type :=
| Answers (response : WorkerResponse)
| Throws (message : string).

(** the runtime reports the outcome of worker [w] to the listeners
    registered on it; an exception has ended the thread by then *)
Definition report (w : nat) (outcome : Outcome) : Async World unit :=
  λ world,
    match outcome with
    | Answers response =>
        let '(r, s) := Server.handle (Server.WorkerMessageEv w response) (server world) in
        (r, mkWorld s (died world))
    | Throws message =>
        let '(r, s) := Server.handle (Server.WorkerErrorEv w message) (server world) in
        (r, mkWorld s ({[w]} ∪ died world))
    end.

(** a worker is released when its thread runs no more: the server
    called [terminate] on it, or the thread died *)
Definition released (w : nat) (world : World) : bool :=
  Server.is_terminated w (server world) || bool_decide (w ∈ died world).

End WorkerThreads.

(** ** index.ts: the process and its stop *)

Module Process.
Import InMemoryQueue.

(** the server objects of [index.ts], the storage of [services.ts] and
    the exit code once [process.exit] was called *)
Record t : Type := mk {
  server : Server.State;
  storage : InMemoryStorage.Store;
  exited : option Z
}.

Definition in_server {A} (m : Async Server.State A) : Async t A :=
  λ p, let '(r, s) := m (server p) in (r, mk s (storage p) (exited p)).

Definition in_storage {A} (m : Async InMemoryStorage.Store A) : Async t A :=
  λ p, let '(r, s) := m (storage p) in (r, mk (server p) s (exited p)).

(** [process.exit(code)] *)
Definition process_exit (code : Z) : Async t unit :=
  λ p, (Fulfilled tt, mk (server p) (storage p) (Some code)).

(** [requestQueue.forEach(({ worker }) => { worker.terminate(); })]
    The calls are made entry by entry; the log keeps them in the order
    of the keys, and only membership in it is looked at. *)
Definition terminate_tracked : Async Server.State unit :=
  st ⇐ get_state ;;
  foldr (λ entry rest, Server.terminate (Server.worker entry.2) ;;; rest)
        (resolve tt) (map_to_list (Server.requestQueue st)).

(** the callback of [httpServer.close] in [gracefulShutdown].  The two
    [cleanup] calls are not awaited: each runs its body and hands back a
    promise whose [.catch(console.error)] could only run after
    [process.exit(0)], that is never. *)
Definition on_http_closed : Async t unit :=
  in_server terminate_tracked ;;;
  try_catch (in_storage InMemoryStorage.cleanup) (λ _, resolve tt) ;;;
  try_catch (in_server (Server.on_queue cleanup)) (λ _, resolve tt) ;;;
  process_exit 0.

(** what reaches the process: an admission over HTTP or an event of the
    loop of [index.ts] *)
Inductive Input : Type :=
| PostProcess (now : Z) (rnd36 : string) (date : Z)
| Loop (ev : Server.Event).

Definition react (input : Input) : Async Server.State unit :=
  match input with
  | PostProcess now rnd36 date =>
      Server.on_queue (Api.post_process now rnd36 date) ;;; resolve tt
  | Loop ev => Server.handle ev
  end.

Definition run (inputs : list Input) (st : Server.State) : Server.State :=
  foldl (λ st input, state_after (react input) st) st inputs.

(** what holds of the server objects after any sequence of inputs: the
    workers are numbered in the order of their creation and each was
    sent one message, for the id its listeners were registered with; a
    tracked or terminated worker is one that was created; and the wire
    carries nothing but [process-result] events with status completed
    or error *)
Definition consistent (st : Server.State) : Prop :=
  (Server.posted st).*1 = seq 0 (Server.spawned st) ∧
  Forall (λ '(w, m), Server.listeners st !! w = Some (ProcessWorker.msg_id m)
                     ∧ ProcessWorker.msg_data m = JsObject [])
         (Server.posted st) ∧
  map_Forall (λ w _, w < Server.spawned st) (Server.listeners st) ∧
  map_Forall (λ i entry, Server.worker entry < Server.spawned st
                         ∧ Server.listeners st !! Server.worker entry = Some i)
             (Server.requestQueue st) ∧
  Forall (λ w, w < Server.spawned st) (Server.terminated st) ∧
  Forall (λ '(_, (event, payload)),
            event = "process-result"
            ∧ (Server.status payload = "completed" ∨ Server.status payload = "error"))
         (Server.inbox st).

End Process.

(** ** client/src/components/ProcessRequests.tsx: the list of requests *)

Module ProcessRequests.

(** The type [ProcessRequest] of the client is not among the sources;
    its fields are the ones this component reads and writes:
    [{ id: string; status: 'pending' | 'completed' | 'error'; result?: string }].
    The status is the string the event carried. *)
Record ProcessRequest : Type := mkProcessRequest {
  id : string;
  status : string;
  result : option string
}.

(** [setRequests(prev => [newRequest, ...prev])] for the id of the
    answer to [POST /process] *)
Definition handleCreateRequest (response_id : string) (prev : list ProcessRequest)
  : list ProcessRequest :=
  mkProcessRequest response_id "pending" None :: prev.

(** the listener of [process-result]:
    [prev.map(req => req.id === data.id
       ? { ...req, status: data.status, result: data.result } : req)] *)
Definition on_process_result (data : Server.ProcessResult) (prev : list ProcessRequest)
  : list ProcessRequest :=
  (λ req, if decide (id req = Server.id data)
          then mkProcessRequest (id req) (Server.status data) (Some (Server.result data))
          else req) <$> prev.

Record Stats : Type := mkStats {
  total : nat;
  pending : nat;
  completed : nat;
  error : nat
}.

Definition stats (requests : list ProcessRequest) : Stats :=
  mkStats (length requests)
          (length (List.filter (λ r, bool_decide (status r = "pending")) requests))
          (length (List.filter (λ r, bool_decide (status r = "completed")) requests))
          (length (List.filter (λ r, bool_decide (status r = "error")) requests)).

(** what happens to the list: a request was created, or a result came in *)
Inductive Change : Type :=
| Created (response_id : string)
| Result (data : Server.ProcessResult).

Definition apply (c : Change) (requests : list ProcessRequest) : list ProcessRequest :=
  match c with
  | Created i => handleCreateRequest i requests
  | Result data => on_process_result data requests
  end.

Definition after (changes : list Change) : list ProcessRequest :=
  foldl (λ requests c, apply c requests) [] changes.

End ProcessRequests.

(** ** A runtime to run the definitions on *)

Module Sample.
Import Types.

Definition lower_ascii (c : ascii) : ascii :=
  let n := nat_of_ascii c in
  if decide (65 ≤ n ≤ 90)%nat then ascii_of_nat (n + 32) else c.

Fixpoint lower (s : string) : string :=
  match s with
  | EmptyString => EmptyString
  | String c s' => String (lower_ascii c) (lower s')
  end.

Definition contains (s t : string) : bool :=
  match String.index 0 t s with
  | Some _ => true
  | None => false
  end.

Definition person (i : nat) : Person :=
  mkPerson ("avatar-" +:+ pretty i)
           (default "Ada" (["Ada"; "Bob"; "Cyd"] !! (i `mod` 3)%nat))
           "Doe"
           (18 + Z.of_nat i)
           (default "Greek" (["Greek"; "French"] !! (i `mod` 2)%nat))
           (take (i `mod` 3)%nat ["Chess"; "Yoga"]).

Definition runtime : Runtime :=
  {| toLowerCase := lower; includes := contains; faker := person |}.

Definition five_people : InMemoryStorage.Store :=
  InMemoryStorage.mkStore (person <$> seq 0 5) None.

End Sample.

(** * Properties *)

(** ** The queue object *)

Section QueueCalls.
Import InMemoryQueue.
Implicit Types (q : gmap string Item) (i j : string) (it : Item).

(** *** What each method computes *)

Lemma enqueue_eq i d q :
  enqueue i d q = (Fulfilled tt, <[i := mkItem pending d None None]> q).
Proof. reflexivity. Qed.

Lemma getStatus_eq i q :
  getStatus i q = (Fulfilled (default pending (status <$> q !! i)), q).
Proof. unfold getStatus, await, get_state. by destruct (q !! i). Qed.

Lemma complete_eq i r q :
  complete i r q =
    (Fulfilled tt,
     from_option (λ it, <[i := mkItem completed (data it) (Some r) (error it)]> q) q (q !! i)).
Proof. unfold complete, await, get_state. by destruct (q !! i). Qed.

Lemma fail_eq i e q :
  fail i e q =
    (Fulfilled tt,
     from_option (λ it, <[i := mkItem failed (data it) (result it) (Some e)]> q) q (q !! i)).
Proof. unfold fail, await, get_state. by destruct (q !! i). Qed.

Lemma complete_present i r q it :
  q !! i = Some it →
  state_after (complete i r) q = <[i := mkItem completed (data it) (Some r) (error it)]> q.
Proof. intros Hi. unfold state_after. by rewrite complete_eq, Hi. Qed.

Lemma fail_present i e q it :
  q !! i = Some it →
  state_after (fail i e) q = <[i := mkItem failed (data it) (result it) (Some e)]> q.
Proof. intros Hi. unfold state_after. by rewrite fail_eq, Hi. Qed.

Lemma complete_absent i r q : q !! i = None → state_after (complete i r) q = q.
Proof. intros Hi. unfold state_after. by rewrite complete_eq, Hi. Qed.

Lemma fail_absent i e q : q !! i = None → state_after (fail i e) q = q.
Proof. intros Hi. unfold state_after. by rewrite fail_eq, Hi. Qed.

(** No method of the class rejects its promise. *)
Lemma call_fulfilled c q : settles_as (call c) q = Fulfilled tt.
Proof.
  unfold settles_as.
  destruct c as [|i d|i|i r|i e|]; simpl; try reflexivity.
  - unfold await. by rewrite getStatus_eq.
  - by rewrite complete_eq.
  - by rewrite fail_eq.
Qed.

(** A call made for [i] leaves the records of the other ids alone. *)
Lemma complete_other i j r q : i ≠ j → state_after (complete i r) q !! j = q !! j.
Proof.
  intros Hne. unfold state_after. rewrite complete_eq. simpl.
  destruct (q !! i); simpl; [by rewrite lookup_insert_ne|done].
Qed.

Lemma fail_other i j e q : i ≠ j → state_after (fail i e) q !! j = q !! j.
Proof.
  intros Hne. unfold state_after. rewrite fail_eq. simpl.
  destruct (q !! i); simpl; [by rewrite lookup_insert_ne|done].
Qed.

Lemma run_snoc cs c q : run (cs ++ [c]) q = state_after (call c) (run cs q).
Proof. unfold run. by rewrite foldl_app. Qed.

Lemma run_cons c cs q : run (c :: cs) q = run cs (state_after (call c) q).
Proof. reflexivity. Qed.

End QueueCalls.

(** *** Calls on a record that is already completed or failed *)

Section TerminalCalls.
Import InMemoryQueue.
Implicit Types (q : gmap string Item) (i : string) (it : Item).

Lemma complete_twice i r q :
  state_after (complete i r) (state_after (complete i r) q) = state_after (complete i r) q.
Proof.
  destruct (q !! i) as [it|] eqn:Hi.
  - rewrite (complete_present i r q it Hi).
    erewrite complete_present by apply lookup_insert_eq.
    simpl. by rewrite insert_insert_eq.
  - by rewrite !(complete_absent i r q Hi).
Qed.

Lemma fail_twice i e q :
  state_after (fail i e) (state_after (fail i e) q) = state_after (fail i e) q.
Proof.
  destruct (q !! i) as [it|] eqn:Hi.
  - rewrite (fail_present i e q it Hi).
    erewrite fail_present by apply lookup_insert_eq.
    simpl. by rewrite insert_insert_eq.
  - by rewrite !(fail_absent i e q Hi).
Qed.

(** C1, as the code has it: on a record that is already completed or
    failed, a further [complete] or [fail] never rejects; [complete]
    writes status completed and the new result and keeps the error,
    [fail] writes status failed and the new error and keeps the result;
    so the same call made a second time changes nothing. *)
Theorem terminal_record_is_overwritten i q it r e :
  q !! i = Some it →
  terminal (status it) = true →
  settles_as (complete i r) q = Fulfilled tt ∧
  settles_as (fail i e) q = Fulfilled tt ∧
  outcome i (state_after (complete i r) q) = Some (completed, Some r, error it) ∧
  outcome i (state_after (fail i e) q) = Some (failed, result it, Some e) ∧
  state_after (complete i r) (state_after (complete i r) q) = state_after (complete i r) q ∧
  state_after (fail i e) (state_after (fail i e) q) = state_after (fail i e) q.
Proof.
  intros Hi _. repeat split.
  - unfold settles_as. by rewrite complete_eq.
  - unfold settles_as. by rewrite fail_eq.
  - rewrite (complete_present i r q it Hi). unfold outcome.
    by rewrite lookup_insert_eq.
  - rewrite (fail_present i e q it Hi). unfold outcome.
    by rewrite lookup_insert_eq.
  - apply complete_twice.
  - apply fail_twice.
Qed.

Lemma terminal_record_is_overwritten_witness :
  let q : gmap string Item := {[ "a" := mkItem failed JsUndefined None (Some "boom") ]} in
  outcome "a" (state_after (complete "a" "ok") q) = Some (completed, Some "ok", Some "boom") ∧
  outcome "a" (state_after (fail "a" "again") q) = Some (failed, None, Some "again").
Proof.
  intros q.
  pose proof (terminal_record_is_overwritten "a" q
                (mkItem failed JsUndefined None (Some "boom")) "ok" "again"
                eq_refl eq_refl) as (_ & _ & Hc & Hf & _).
  split; [exact Hc | exact Hf].
Defined.

(** C1 fails as stated: [complete] called after [fail] turns the failed
    record into a completed one and sets its result. *)
Lemma complete_after_fail_alters_record :
  let q := run [CEnqueue "a" JsUndefined; CFail "a" "boom"] new_queue in
  outcome "a" q = Some (failed, None, Some "boom") ∧
  settles_as (complete "a" "ok") q = Fulfilled tt ∧
  outcome "a" (state_after (complete "a" "ok") q) = Some (completed, Some "ok", Some "boom") ∧
  outcome "a" (state_after (complete "a" "ok") q) ≠ outcome "a" q.
Proof. vm_compute. repeat split; congruence. Qed.

End TerminalCalls.

(** *** Ids the table does not hold *)

Section UnknownIds.
Import InMemoryQueue.
Implicit Types (q : gmap string Item) (i : string).

(** C2, as the code has it: for an id that is not in the table,
    [getStatus] fulfils its promise with pending and leaves the table
    as it is. *)
Theorem getStatus_unknown_is_pending i q :
  q !! i = None →
  getStatus i q = (Fulfilled pending, q).
Proof. intros Hi. by rewrite getStatus_eq, Hi. Qed.

Lemma getStatus_unknown_is_pending_witness :
  getStatus "never-enqueued" new_queue = (Fulfilled pending, new_queue).
Proof. apply (getStatus_unknown_is_pending "never-enqueued" new_queue). reflexivity. Defined.

(** C2 fails as stated: on the empty table [getStatus] does not reject
    with NotFoundError, it answers pending. *)
Lemma getStatus_unknown_does_not_reject :
  new_queue !! "never-enqueued" = None ∧
  observed "never-enqueued" new_queue = Fulfilled pending ∧
  observed "never-enqueued" new_queue ≠ Rejected "NotFoundError".
Proof. vm_compute. repeat split; congruence. Qed.

(** C10: for an id that is not in the table, [complete] and [fail]
    fulfil their promise and return the very same table: no record is
    created and none is modified. *)
Theorem complete_fail_unknown_noop i r e q :
  q !! i = None →
  complete i r q = (Fulfilled tt, q) ∧ fail i e q = (Fulfilled tt, q).
Proof. intros Hi. by rewrite complete_eq, fail_eq, Hi. Qed.

Lemma complete_fail_unknown_noop_witness :
  let q : gmap string Item := {[ "a" := mkItem pending JsUndefined None None ]} in
  complete "b" "ok" q = (Fulfilled tt, q) ∧ fail "b" "boom" q = (Fulfilled tt, q).
Proof.
  intros q. apply (complete_fail_unknown_noop "b" "ok" "boom" q).
  vm_compute. reflexivity.
Defined.

End UnknownIds.

(** *** Enqueueing an id twice *)

Section Readmission.
Import InMemoryQueue.
Implicit Types (q : gmap string Item) (i j : string).

(** C3, as the code has it: [enqueue] on an id the table already holds
    fulfils its promise and replaces the record by a new pending one
    that carries the new payload and neither result nor error; the
    records of the other ids stay as they are. *)
Theorem enqueue_present_replaces i d q :
  is_Some (q !! i) →
  settles_as (enqueue i d) q = Fulfilled tt ∧
  state_after (enqueue i d) q !! i = Some (mkItem pending d None None) ∧
  ∀ j, j ≠ i → state_after (enqueue i d) q !! j = q !! j.
Proof.
  intros _. unfold settles_as, state_after. rewrite enqueue_eq. simpl.
  split; [done|]. split; [apply lookup_insert_eq|].
  intros j Hj. by apply lookup_insert_ne.
Qed.

Lemma enqueue_present_replaces_witness :
  let q : gmap string Item :=
    {[ "a" := mkItem completed (JsString "first") (Some "ok") None ]} in
  state_after (enqueue "a" (JsString "second")) q !! "a"
  = Some (mkItem pending (JsString "second") None None).
Proof.
  intros q.
  refine (proj1 (proj2 (enqueue_present_replaces "a" (JsString "second") q _))).
  vm_compute. eexists. reflexivity.
Defined.

(** C3 fails as stated: a second [enqueue] of an id that is already
    completed does not reject with DuplicateIdError and the existing
    record is gone. *)
Lemma enqueue_twice_replaces_record :
  let q := run [CEnqueue "a" (JsString "first"); CComplete "a" "ok"] new_queue in
  q !! "a" = Some (mkItem completed (JsString "first") (Some "ok") None) ∧
  settles_as (enqueue "a" (JsString "second")) q = Fulfilled tt ∧
  settles_as (enqueue "a" (JsString "second")) q ≠ Rejected "DuplicateIdError" ∧
  state_after (enqueue "a" (JsString "second")) q !! "a"
    = Some (mkItem pending (JsString "second") None None) ∧
  state_after (enqueue "a" (JsString "second")) q !! "a" ≠ q !! "a".
Proof. vm_compute. repeat split; congruence. Qed.

End Readmission.

(** *** Result and error of the records of a queue *)

Section ResultAndError.
Import InMemoryQueue.
Implicit Types (q : gmap string Item) (i : string) (it : Item).

Lemma call_keeps_settled_fields c q :
  map_Forall (λ _, settled_fields) q →
  map_Forall (λ _, settled_fields) (state_after (call c) q).
Proof.
  intros Hq. unfold state_after.
  destruct c as [|i d|i|i r|i e|]; simpl.
  - exact Hq.
  - apply map_Forall_insert_2; [by split|exact Hq].
  - unfold await. by rewrite getStatus_eq.
  - rewrite complete_eq. simpl. destruct (q !! i) as [it|] eqn:Hi; simpl; [|exact Hq].
    apply map_Forall_insert_2; [by eexists|exact Hq].
  - rewrite fail_eq. simpl. destruct (q !! i) as [it|] eqn:Hi; simpl; [|exact Hq].
    apply map_Forall_insert_2; [by eexists|exact Hq].
  - apply map_Forall_empty.
Qed.

Lemma run_keeps_settled_fields cs q :
  map_Forall (λ _, settled_fields) q →
  map_Forall (λ _, settled_fields) (run cs q).
Proof.
  revert q. induction cs as [|c cs IH]; intros q Hq; [exact Hq|].
  rewrite run_cons. apply IH. by apply call_keeps_settled_fields.
Qed.

(** After every sequence of calls on a new queue, a record whose status
    is pending or processing has neither result nor error, a completed
    record has a result and a failed record has an error. *)
Theorem unsettled_record_has_no_result_nor_error cs i it :
  run cs new_queue !! i = Some it →
  (terminal (status it) = false → result it = None ∧ error it = None) ∧
  (status it = completed → is_Some (result it)) ∧
  (status it = failed → is_Some (error it)).
Proof.
  intros Hi.
  pose proof (run_keeps_settled_fields cs new_queue (map_Forall_empty _) i it Hi) as Hit.
  unfold settled_fields in Hit.
  destruct (status it); simpl; repeat split; try done; by destruct Hit.
Qed.

Lemma unsettled_record_has_no_result_nor_error_witness :
  let cs := [CEnqueue "a" JsUndefined; CEnqueue "b" JsUndefined; CComplete "b" "ok"] in
  run cs new_queue !! "a" = Some (mkItem pending JsUndefined None None) ∧
  (result (mkItem pending JsUndefined None None) = None ∧
   error (mkItem pending JsUndefined None None) = None).
Proof.
  intros cs. split; [vm_compute; reflexivity|].
  apply (unsettled_record_has_no_result_nor_error cs "a"
           (mkItem pending JsUndefined None None)); [vm_compute|simpl]; reflexivity.
Defined.

(** C4 fails as stated: after [fail] and then [complete] on one id the
    record holds a result and an error at once. *)
Lemma result_and_error_both_set :
  let q := run [CEnqueue "a" JsUndefined; CFail "a" "boom"; CComplete "a" "ok"] new_queue in
  q !! "a" = Some (mkItem completed JsUndefined (Some "ok") (Some "boom")) ∧
  (result <$> q !! "a") = Some (Some "ok") ∧
  (error <$> q !! "a") = Some (Some "boom").
Proof. vm_compute. repeat split; reflexivity. Qed.

End ResultAndError.

(** *** The order in which the statuses of an id are seen *)

Section Lifecycle.
Import InMemoryQueue.
Implicit Types (q : gmap string Item) (i : string) (it : Item).

Lemma observed_lookup i q it : q !! i = Some it → observed i q = Fulfilled (status it).
Proof. intros Hi. unfold observed, settles_as. by rewrite getStatus_eq, Hi. Qed.

(** One call that keeps [i] maps a terminal record of [i] to a terminal
    record of [i]. *)
Lemma call_keeps_terminal c q i it :
  q !! i = Some it → terminal (status it) = true → keeps i c = true →
  ∃ it', state_after (call c) q !! i = Some it' ∧ terminal (status it') = true.
Proof.
  intros Hi Ht Hk. unfold state_after.
  destruct c as [|j d|j|j r|j e|]; simpl in *.
  - by exists it.
  - apply bool_decide_eq_true in Hk. exists it. by rewrite lookup_insert_ne.
  - unfold await. rewrite getStatus_eq. by exists it.
  - rewrite complete_eq. simpl. destruct (decide (j = i)) as [->|Hne].
    + rewrite Hi. simpl. eexists. by rewrite lookup_insert_eq.
    + exists it. destruct (q !! j); simpl; [by rewrite lookup_insert_ne|done].
  - rewrite fail_eq. simpl. destruct (decide (j = i)) as [->|Hne].
    + rewrite Hi. simpl. eexists. by rewrite lookup_insert_eq.
    + exists it. destruct (q !! j); simpl; [by rewrite lookup_insert_ne|done].
  - done.
Qed.

(** C5, as the code has it: as long as the id is not enqueued again and
    the table is not cleared, a record that is completed or failed is
    reported completed or failed after every later call, never pending
    or processing; which of the two it is follows the last [complete]
    or [fail]. *)
Theorem terminal_status_stays_terminal cs q i it :
  q !! i = Some it →
  terminal (status it) = true →
  forallb (keeps i) cs = true →
  Forall (λ o, ∃ s, o = Fulfilled s ∧ terminal s = true) (trace i cs q).
Proof.
  revert q it. induction cs as [|c cs IH]; intros q it Hi Ht Hk; simpl.
  - constructor.
  - apply andb_prop in Hk as [Hc Hcs].
    destruct (call_keeps_terminal c q i it Hi Ht Hc) as (it' & Hi' & Ht').
    constructor.
    + exists (status it'). split; [by apply observed_lookup|done].
    + by apply (IH _ it').
Qed.

Lemma terminal_status_stays_terminal_witness :
  let q : gmap string Item := {[ "a" := mkItem completed JsUndefined (Some "ok") None ]} in
  let cs := [CComplete "a" "again"; CEnqueue "b" JsUndefined; CFail "a" "boom"; CGetStatus "a"] in
  Forall (λ o, ∃ s, o = Fulfilled s ∧ terminal s = true) (trace "a" cs q).
Proof.
  intros q cs.
  apply (terminal_status_stays_terminal cs q "a"
           (mkItem completed JsUndefined (Some "ok") None));
    vm_compute; reflexivity.
Defined.

(** C5 fails as stated: a failed record becomes completed when
    [complete] is called on it, and pending again when its id is
    enqueued a second time. *)
Lemma terminal_status_is_left :
  trace "a" [CEnqueue "a" JsUndefined; CFail "a" "boom"; CComplete "a" "ok"] new_queue
    = [Fulfilled pending; Fulfilled failed; Fulfilled completed] ∧
  trace "a" [CEnqueue "a" JsUndefined; CFail "a" "boom"; CEnqueue "a" JsUndefined] new_queue
    = [Fulfilled pending; Fulfilled failed; Fulfilled pending].
Proof. vm_compute. split; reflexivity. Qed.

End Lifecycle.

(** ** The admission endpoint *)

Section Admission.
Import InMemoryQueue Api.
Implicit Types (q : gmap string Item) (now date : Z).

(** Whatever the table holds, [POST /process] builds its id from the
    clock and the random draw, stores a pending record under it, answers
    200 with [{ id, status: "pending" }], and [getStatus] on that id
    then reports pending. *)
Theorem post_process_admits_pending now (rnd36 : string) date q :
  let requestId := make_request_id now rnd36 in
  let q' := state_after (post_process now rnd36 date) q in
  settles_as (post_process now rnd36 date) q =
    Fulfilled (mkResponse 200
                 (JsObject [("id", JsString requestId); ("status", JsString "pending")])) ∧
  q' = <[requestId := mkItem pending (JsObject [("timestamp", JsDate date)]) None None]> q ∧
  observed requestId q' = Fulfilled pending.
Proof.
  intros requestId q'. subst q'. unfold settles_as, state_after.
  assert (post_process now rnd36 date q =
            (Fulfilled (mkResponse 200
               (JsObject [("id", JsString requestId); ("status", JsString "pending")])),
             <[requestId := mkItem pending (JsObject [("timestamp", JsDate date)]) None None]> q))
    as -> by reflexivity.
  simpl. repeat split.
  erewrite observed_lookup by apply lookup_insert_eq. reflexivity.
Qed.

(** *** The ids of two admissions *)

Lemma pretty_N_go_underscore_free (x : N) s :
  underscore_free s = true → underscore_free (pretty_N_go x s) = true.
Proof.
  revert s. induction (N.lt_wf_0 x) as [x _ IH]; intros s Hs.
  destruct (decide (x = 0)%N) as [->|Hx]; [by rewrite pretty_N_go_0|].
  rewrite pretty_N_go_step by lia. apply IH; [apply N.div_lt; lia|].
  simpl. unfold pretty_N_char. by repeat case_match.
Qed.

Lemma pretty_Z_underscore_free (z : Z) : underscore_free (pretty z) = true.
Proof.
  assert (∀ p : positive, underscore_free (pretty p) = true) as Hpos.
  { intros p. unfold pretty, pretty_positive, pretty, pretty_N.
    case_decide; [done|]. by apply pretty_N_go_underscore_free. }
  destruct z as [|p|p]; [done|apply Hpos|].
  change (pretty (Z.neg p)) with ("-" +:+ pretty p). simpl. apply Hpos.
Qed.

Lemma underscore_splits a b s t :
  underscore_free a = true → underscore_free b = true →
  a +:+ "_" +:+ s = b +:+ "_" +:+ t → a = b ∧ s = t.
Proof.
  revert b. induction a as [|c a IH]; intros [|c' b] Ha Hb Heq; simpl in *.
  - by simplify_eq.
  - by simplify_eq.
  - by simplify_eq.
  - injection Heq as -> Heq.
    destruct (Ascii.eqb c' "_"%char); [done|].
    by destruct (IH b Ha Hb Heq) as [-> ->].
Qed.

(** Two admissions get the same id only when they read the same clock
    value and drew the same nine random characters. *)
Lemma make_request_id_inj now (rnd36 : string) now' (rnd36' : string) :
  make_request_id now rnd36 = make_request_id now' rnd36' →
  now = now' ∧ String.substring 2 9 rnd36 = String.substring 2 9 rnd36'.
Proof.
  unfold make_request_id. intros Heq.
  change ("req_" +:+ ?x) with (String "r" (String "e" (String "q" (String "_" x)))) in Heq.
  injection Heq as Heq.
  apply underscore_splits in Heq as [Hn Hs]; try apply pretty_Z_underscore_free.
  split; [by apply (inj pretty)|done].
Qed.

End Admission.

(** ** The connection handler *)

Section Dispatch.
Import InMemoryQueue ProcessWorker Server.
Implicit Types (st : State) (socket event : string) (w : nat).

(** *** The state each handler leaves *)

Lemma on_process_request_eq socket i st :
  on_process_request socket i st =
    (Fulfilled tt,
     mkState (queue st)
       (<[i := mkTracked (spawned st) (Some socket)]> (requestQueue st))
       (S (spawned st))
       (<[spawned st := i]> (listeners st))
       (posted st ++ [(spawned st, mkWorkerMessage i (JsObject []))])
       (terminated st) (connected st) (inbox st) (console st)).
Proof.
  unfold on_process_request, await, on_queue. rewrite getStatus_eq. simpl.
  by case_decide.
Qed.

Lemma on_worker_message_eq w response st :
  on_worker_message w response st =
    (Fulfilled tt,
     mkState (state_after (complete (resp_id response) (resp_result response)) (queue st))
       (delete (resp_id response) (requestQueue st))
       (spawned st) (listeners st) (posted st)
       (terminated st ++ [w]) (connected st)
       (inbox st ++
          ((λ s, (s, ("process-result",
                      mkProcessResult (resp_id response) "completed" (resp_result response))))
             <$> elements (connected st)))
       (console st)).
Proof.
  unfold on_worker_message, await, on_queue, state_after. simpl.
  rewrite complete_eq. reflexivity.
Qed.

Lemma on_worker_error_eq i message st :
  on_worker_error i message st =
    (Fulfilled tt,
     mkState (state_after (fail i message) (queue st))
       (delete i (requestQueue st))
       (spawned st) (listeners st) (posted st)
       (terminated st) (connected st)
       (inbox st ++
          ((λ s, (s, ("process-result",
                      mkProcessResult i "error" ("Error: " +:+ message))))
             <$> elements (connected st)))
       (console st ++ ["Worker error: " +:+ message])).
Proof.
  unfold on_worker_error, await, on_queue, state_after. simpl.
  rewrite fail_eq. reflexivity.
Qed.

(** The handler of [process-request] starts a worker for every id it is
    given: the status it read does not enter the result. *)
Lemma process_request_always_spawns socket i st :
  let st' := state_after (on_process_request socket i) st in
  spawned st' = S (spawned st) ∧
  requestQueue st' !! i = Some (mkTracked (spawned st) (Some socket)) ∧
  posted st' = posted st ++ [(spawned st, mkWorkerMessage i (JsObject []))].
Proof.
  unfold state_after. rewrite on_process_request_eq. simpl.
  split; [done|]. split; [apply lookup_insert_eq|done].
Qed.

(** Both worker handlers drop the entry of the id from [requestQueue];
    only the one for [message] calls [terminate]. *)
Lemma worker_message_releases w response st :
  let st' := state_after (on_worker_message w response) st in
  requestQueue st' !! resp_id response = None ∧ terminated st' = terminated st ++ [w].
Proof.
  unfold state_after. rewrite on_worker_message_eq. simpl.
  split; [apply lookup_delete_eq|done].
Qed.

Lemma worker_error_untracks i message st :
  let st' := state_after (on_worker_error i message) st in
  requestQueue st' !! i = None ∧ terminated st' = terminated st.
Proof.
  unfold state_after. rewrite on_worker_error_eq. simpl.
  split; [apply lookup_delete_eq|done].
Qed.

(** C6 on the code: the task admitted by one [POST /process] is
    processed to completion; a second [process-request] for its id, now
    completed, starts a second worker all the same, and so does a
    [process-request] for an id the queue never saw. *)
Theorem process_request_ignores_status :
  let i := "req_1700000000000_abc123xyz" in
  let admitted :=
    state_after (on_queue (Api.post_process 1700000000000 "0.abc123xyz" 1700000000000)) boot in
  let done_once :=
    run [Connection "s1"; ProcessRequest "s1" i;
         WorkerMessageEv 0 (reply (mkWorkerMessage i (JsObject [])) "2023-11-14T22:13:22.000Z")]
        admitted in
  let again := state_after (on_process_request "s1" i) done_once in
  let ghost := state_after (on_process_request "s1" "ghost") done_once in
  (observed i (queue done_once) = Fulfilled completed ∧
   spawned done_once = 1 ∧ is_tracked i done_once = false) ∧
  (spawned again = 2 ∧
   requestQueue again !! i = Some (mkTracked 1 (Some "s1")) ∧
   posted again = posted done_once ++ [(1, mkWorkerMessage i (JsObject []))]) ∧
  (queue done_once !! "ghost" = None ∧
   spawned ghost = 2 ∧
   requestQueue ghost !! "ghost" = Some (mkTracked 1 (Some "s1"))).
Proof. vm_compute. repeat split; reflexivity. Qed.

(** The calls the server makes itself, on the same dispatched worker,
    once answering and once raising [error].  After the answer its entry
    is gone and [terminate] was called on it; after the error its entry
    is gone, the task is failed, and the server made no [terminate]
    call: on that path the thread has ended on its own. *)
Theorem worker_error_does_not_terminate :
  let i := "req_1700000000000_abc123xyz" in
  let admitted :=
    state_after (on_queue (Api.post_process 1700000000000 "0.abc123xyz" 1700000000000)) boot in
  let dispatched := run [Connection "s1"; ProcessRequest "s1" i] admitted in
  let answered :=
    run [WorkerMessageEv 0 (reply (mkWorkerMessage i (JsObject [])) "2023-11-14T22:13:22.000Z")]
        dispatched in
  let crashed := run [WorkerErrorEv 0 "boom"] dispatched in
  (requestQueue dispatched !! i = Some (mkTracked 0 (Some "s1")) ∧
   is_terminated 0 dispatched = false) ∧
  (is_tracked i answered = false ∧ is_terminated 0 answered = true) ∧
  (observed i (queue crashed) = Fulfilled failed ∧
   is_tracked i crashed = false ∧
   is_terminated 0 crashed = false ∧ terminated crashed = []).
Proof. vm_compute. repeat split; reflexivity. Qed.

End Dispatch.

(** ** The broadcast of a completion *)

Section Broadcast.
Import InMemoryQueue ProcessWorker Server.
Implicit Types (st : State) (socket event : string) (w : nat) (p : ProcessResult).

(** One copy of a broadcast is addressed to a socket that occurs once
    in the list of addressees, none to a socket that is not in it. *)
Lemma copies_for_stranger socket event p (l : list string) :
  socket ∉ l →
  omap (λ '(s, (e, p)), if decide (s = socket ∧ e = event) then Some p else None)
       ((λ s, (s, (event, p))) <$> l) = [].
Proof.
  induction l as [|s l IH]; intros Hnin; [done|].
  apply not_elem_of_cons in Hnin as [Hne Hnin]. simpl.
  rewrite decide_False by (intros [? _]; congruence). by apply IH.
Qed.

Lemma copies_for_member socket event p (l : list string) :
  NoDup l → socket ∈ l →
  omap (λ '(s, (e, p)), if decide (s = socket ∧ e = event) then Some p else None)
       ((λ s, (s, (event, p))) <$> l) = [p].
Proof.
  induction 1 as [|s l Hs Hl IH]; intros Hin; [by apply elem_of_nil in Hin|].
  apply elem_of_cons in Hin. simpl.
  destruct (decide (s = socket ∧ event = event)) as [[-> _]|Hne].
  - f_equal. by apply copies_for_stranger.
  - destruct Hin as [->|Hin]; [by destruct Hne|]. by apply IH.
Qed.

(** C9: when the handler of a worker's [message] runs, the queue record
    of the id is completed and every socket connected at that moment
    receives one more [process-result] event, and only one: the one
    that carries the id, status completed and the result. *)
Theorem completion_reaches_each_subscriber_once st w response socket :
  socket ∈ connected st →
  let st' := state_after (on_worker_message w response) st in
  queue st' = state_after (complete (resp_id response) (resp_result response)) (queue st) ∧
  received socket "process-result" st' =
    received socket "process-result" st ++
    [mkProcessResult (resp_id response) "completed" (resp_result response)].
Proof.
  intros Hin st'. subst st'. unfold state_after at 1 3.
  rewrite on_worker_message_eq. simpl. split; [done|].
  unfold received. simpl. rewrite omap_app. f_equal.
  apply copies_for_member; [apply NoDup_elements|by apply elem_of_elements].
Qed.

Lemma completion_reaches_each_subscriber_once_witness :
  let i := "req_1700000000000_abc123xyz" in
  let st :=
    run [Connection "s1"; Connection "s2"; Connection "s3"; ProcessRequest "s1" i]
      (state_after
         (on_queue (Api.post_process 1700000000000 "0.abc123xyz" 1700000000000)) boot) in
  let response := reply (mkWorkerMessage i (JsObject [])) "2023-11-14T22:13:22.000Z" in
  let st' := state_after (on_worker_message 0 response) st in
  "s2" ∈ connected st ∧
  received "s2" "process-result" st' =
    received "s2" "process-result" st ++
    [mkProcessResult (resp_id response) "completed" (resp_result response)].
Proof.
  intros i st response st'.
  assert ("s2" ∈ connected st) as Hin by (apply (bool_decide_unpack _); vm_compute; exact I).
  split; [exact Hin|].
  exact (proj2 (completion_reaches_each_subscriber_once st 0 response "s2" Hin)).
Defined.

(** A socket that is not connected when the handler runs receives
    nothing from it. *)
Lemma completion_skips_absent_socket st w response socket :
  socket ∉ connected st →
  received socket "process-result" (state_after (on_worker_message w response) st)
  = received socket "process-result" st.
Proof.
  intros Hnin. unfold state_after. rewrite on_worker_message_eq. simpl.
  unfold received. simpl. rewrite omap_app.
  rewrite copies_for_stranger; [apply app_nil_r|by rewrite elem_of_elements].
Qed.

End Broadcast.

(** * Further properties of the queue *)

Section QueueAlgebra.
Import InMemoryQueue CallTargets.
Implicit Types (q : gmap string Item) (i j : string) (it : Item) (c : Call).

(** No call ever writes the status processing: on a queue that started
    empty [getStatus] answers pending, completed or failed, whatever was
    called before. *)
Theorem getStatus_never_reports_processing (cs : list Call) i :
  observed i (run cs new_queue) ≠ Fulfilled processing.
Proof.
  unfold observed, settles_as. rewrite getStatus_eq. simpl.
  destruct (run cs new_queue !! i) as [it|] eqn:Hi; simpl; [|congruence].
  pose proof (run_keeps_settled_fields cs new_queue (map_Forall_empty _) i it Hi) as Hit.
  unfold settled_fields in Hit. intros [= Hs]. by rewrite Hs in Hit.
Qed.

(** the table a call leaves, method by method *)
Lemma state_after_call c q :
  state_after (call c) q =
    match c with
    | CInitialize | CGetStatus _ => q
    | CEnqueue i d => <[i := mkItem pending d None None]> q
    | CComplete i r =>
        from_option (λ it, <[i := mkItem completed (data it) (Some r) (error it)]> q) q (q !! i)
    | CFail i e =>
        from_option (λ it, <[i := mkItem failed (data it) (result it) (Some e)]> q) q (q !! i)
    | CCleanup => ∅
    end.
Proof.
  unfold state_after. destruct c as [|i d|i|i r|i e|]; simpl; try reflexivity.
  - unfold await. by rewrite getStatus_eq.
  - by rewrite complete_eq.
  - by rewrite fail_eq.
Qed.

(** A call made for one id leaves the record of every other id as it
    is, present or absent. *)
Theorem call_leaves_other_ids c i j q :
  target c = Some i → j ≠ i →
  state_after (call c) q !! j = q !! j.
Proof.
  intros Hc Hne. rewrite state_after_call.
  destruct c as [|k d|k|k r|k e|]; simplify_eq/=; try done.
  - by rewrite lookup_insert_ne.
  - destruct (q !! i); simpl; [by rewrite lookup_insert_ne|done].
  - destruct (q !! i); simpl; [by rewrite lookup_insert_ne|done].
Qed.

Lemma call_leaves_other_ids_witness :
  let q : gmap string Item := {[ "b" := mkItem pending JsUndefined None None ]} in
  state_after (call (CFail "a" "boom")) (state_after (call (CEnqueue "a" JsUndefined)) q) !! "b"
  = Some (mkItem pending JsUndefined None None).
Proof.
  intros q.
  rewrite (call_leaves_other_ids (CFail "a" "boom") "a" "b") by (vm_compute; congruence).
  rewrite (call_leaves_other_ids (CEnqueue "a" JsUndefined) "a" "b") by (vm_compute; congruence).
  reflexivity.
Defined.

(** [complete] and [fail] neither add nor remove an id and never touch
    the payload stored at admission. *)
Theorem complete_fail_keep_ids_and_payload i r e q :
  dom (state_after (complete i r) q) = dom q ∧
  dom (state_after (fail i e) q) = dom q ∧
  (∀ j, data <$> state_after (complete i r) q !! j = data <$> q !! j) ∧
  (∀ j, data <$> state_after (fail i e) q !! j = data <$> q !! j).
Proof.
  unfold state_after. rewrite complete_eq, fail_eq. simpl.
  destruct (q !! i) as [it|] eqn:Hi; simpl; [|done].
  assert (i ∈ dom q) as Hin by (apply elem_of_dom; eauto).
  repeat split.
  - rewrite dom_insert_L. set_solver.
  - rewrite dom_insert_L. set_solver.
  - intros j. destruct (decide (j = i)) as [->|Hne].
    + by rewrite lookup_insert_eq, Hi.
    + by rewrite lookup_insert_ne.
  - intros j. destruct (decide (j = i)) as [->|Hne].
    + by rewrite lookup_insert_eq, Hi.
    + by rewrite lookup_insert_ne.
Qed.

Lemma run_app cs cs' q : run (cs ++ cs') q = run cs' (run cs q).
Proof. unfold run. apply foldl_app. Qed.

(** Records only come from [enqueue]: the ids in the table after a
    sequence of calls are ids it held before or ids the sequence
    enqueued. *)
Theorem records_come_from_enqueue (cs : list Call) q :
  dom (run cs q) ⊆ dom q ∪ enqueued cs.
Proof.
  revert q. induction cs as [|c cs IH]; intros q; [set_solver|].
  rewrite run_cons. etrans; [apply IH|].
  rewrite state_after_call. unfold enqueued.
  destruct c as [|i d|i|i r|i e|]; simpl.
  - set_solver.
  - rewrite dom_insert_L. set_solver.
  - set_solver.
  - destruct (q !! i) as [it|] eqn:Hi; simpl; [|set_solver].
    rewrite dom_insert_L. apply elem_of_dom_2 in Hi. set_solver.
  - destruct (q !! i) as [it|] eqn:Hi; simpl; [|set_solver].
    rewrite dom_insert_L. apply elem_of_dom_2 in Hi. set_solver.
  - set_solver.
Qed.

Lemma run_elsewhere (cs : list Call) i q :
  forallb (elsewhere i) cs = true → run cs q !! i = q !! i.
Proof.
  revert q. induction cs as [|c cs IH]; intros q Hcs; [done|].
  apply andb_prop in Hcs as [Hc Hcs]. rewrite run_cons, (IH _ Hcs).
  rewrite state_after_call.
  destruct c as [|j d|j|j r|j e|]; simpl in *; try done;
    apply bool_decide_eq_true in Hc.
  - by rewrite lookup_insert_ne.
  - destruct (q !! j); simpl; [by rewrite lookup_insert_ne|done].
  - destruct (q !! j); simpl; [by rewrite lookup_insert_ne|done].
Qed.

(** An admitted task that is completed (or failed) once, with reads and
    calls for other ids in between, ends with exactly the admitted payload, the
    reported result (or error) and nothing else. *)
Theorem enqueue_then_settle (cs : list Call) i d r e q :
  forallb (elsewhere i) cs = true →
  run (CEnqueue i d :: cs ++ [CComplete i r]) q !! i
    = Some (mkItem completed d (Some r) None) ∧
  run (CEnqueue i d :: cs ++ [CFail i e]) q !! i
    = Some (mkItem failed d None (Some e)).
Proof.
  intros Hcs.
  assert (run cs (state_after (call (CEnqueue i d)) q) !! i
          = Some (mkItem pending d None None)) as Hi.
  { rewrite (run_elsewhere cs i _ Hcs), state_after_call. apply lookup_insert_eq. }
  rewrite !run_cons, !run_app.
  change (run [CComplete i r] ?t) with (state_after (complete i r) t).
  change (run [CFail i e] ?t) with (state_after (fail i e) t).
  rewrite (complete_present _ _ _ _ Hi), (fail_present _ _ _ _ Hi).
  by rewrite !lookup_insert_eq.
Qed.

Lemma enqueue_then_settle_witness :
  let cs := [CEnqueue "b" JsUndefined; CFail "b" "boom"; CGetStatus "a"] in
  run (CEnqueue "a" (JsString "job") :: cs ++ [CComplete "a" "ok"]) new_queue !! "a"
  = Some (mkItem completed (JsString "job") (Some "ok") None).
Proof.
  intros cs.
  apply (enqueue_then_settle cs "a" (JsString "job") "ok" "unused" new_queue).
  vm_compute. reflexivity.
Defined.

Lemma call_own_id c i q :
  target c = Some i → state_after (call c) q !! i = written c (q !! i).
Proof.
  intros Hc. rewrite state_after_call.
  destruct c as [|k d|k|k r|k e|]; simplify_eq/=; try done.
  - apply lookup_insert_eq.
  - destruct (q !! i) eqn:Hi; simpl; [apply lookup_insert_eq|done].
  - destruct (q !! i) eqn:Hi; simpl; [apply lookup_insert_eq|done].
Qed.

(** Calls made for two different ids commute: the table does not depend
    on the order in which the outcomes of two tasks arrive. *)
Theorem calls_on_distinct_ids_commute c c' i j q :
  target c = Some i → target c' = Some j → i ≠ j →
  run [c; c'] q = run [c'; c] q.
Proof.
  intros Hc Hc' Hne. unfold run. simpl. apply map_eq. intros k.
  destruct (decide (k = i)) as [->|Hki]; [|destruct (decide (k = j)) as [->|Hkj]].
  - rewrite (call_leaves_other_ids c' j i) by done.
    rewrite !(call_own_id c i) by done.
    by rewrite (call_leaves_other_ids c' j i).
  - rewrite (call_leaves_other_ids c i j) by done.
    rewrite !(call_own_id c' j) by done.
    by rewrite (call_leaves_other_ids c i j).
  - rewrite (call_leaves_other_ids c' j k _ Hc' Hkj), (call_leaves_other_ids c i k _ Hc Hki).
    by rewrite (call_leaves_other_ids c i k _ Hc Hki), (call_leaves_other_ids c' j k _ Hc' Hkj).
Qed.

Lemma calls_on_distinct_ids_commute_witness :
  let q := run [CEnqueue "a" JsUndefined; CEnqueue "b" JsUndefined] new_queue in
  run [CComplete "a" "ok"; CFail "b" "boom"] q = run [CFail "b" "boom"; CComplete "a" "ok"] q.
Proof.
  intros q.
  apply (calls_on_distinct_ids_commute (CComplete "a" "ok") (CFail "b" "boom") "a" "b" q);
    vm_compute; congruence.
Defined.

End QueueAlgebra.

(** * The people store *)

Section Slices.
Import Js.
Local Open Scope Z_scope.
Context {A : Type}.
Implicit Types (l : list A) (a b n : Z).

Lemma slice_from_start b l :
  slice 0 b l =
    take (Z.to_nat (if decide (b < 0) then Z.max (Z.of_nat (length l) + b) 0 else b)) l.
Proof.
  unfold slice. rewrite (decide_False (P := 0 < 0)) by lia.
  assert (0 `min` Z.of_nat (length l) = 0) as -> by lia.
  rewrite drop_0, Z.sub_0_r. case_decide; [done|].
  destruct (decide (b ≤ Z.of_nat (length l))).
  - f_equal. lia.
  - by rewrite !take_ge by lia.
Qed.

Lemma slice_between a b l :
  0 ≤ a → 0 ≤ b →
  slice a b l = take (Z.to_nat b - Z.to_nat a) (drop (Z.to_nat a) l).
Proof.
  intros Ha Hb. unfold slice. rewrite !decide_False by lia.
  destruct (decide (a ≤ Z.of_nat (length l))).
  - replace (Z.to_nat (a `min` Z.of_nat (length l))) with (Z.to_nat a) by lia.
    destruct (decide (b ≤ Z.of_nat (length l))).
    + f_equal. lia.
    + rewrite !take_ge; [done|rewrite length_drop; lia|rewrite length_drop; lia].
  - rewrite !drop_ge by lia. by rewrite !take_nil.
Qed.

Lemma slice_sublist a b l : slice a b l `sublist_of` l.
Proof.
  unfold slice. etrans; [apply sublist_take|apply sublist_drop].
Qed.

Lemma slice_length_window a n l :
  0 ≤ n → (length (slice a (a + n) l) ≤ Z.to_nat n)%nat.
Proof.
  intros Hn. unfold slice. rewrite length_take, length_drop.
  repeat case_decide; lia.
Qed.

End Slices.

Section People.
Import Types InMemoryStorage PeopleQueries Js.
Local Open Scope Z_scope.
Context `{Runtime}.
Implicit Types (params : Query.t) (st : Store) (people : list Person).

Lemma getPeople_eq params st :
  getPeople params st =
    (Fulfilled
       (Paginated.mk
          (slice ((Query.page params - 1) * Query.pageSize params)
                 ((Query.page params - 1) * Query.pageSize params + Query.pageSize params)
                 (filtered params (data st)))
          (length (filtered params (data st)))
          (Query.page params) (Query.pageSize params)
          (ceil_div (length (filtered params (data st))) (Query.pageSize params))),
     st).
Proof. reflexivity. Qed.

Lemma filter_twice {B} (f g : B → bool) (l : list B) :
  List.filter f (List.filter g l) = List.filter (λ x, g x && f x) l.
Proof.
  induction l as [|x l IH]; [done|]. simpl.
  destruct (g x); simpl; [destruct (f x)|]; by rewrite IH.
Qed.

Lemma filter_all {B} (l : list B) : List.filter (λ _, true) l = l.
Proof. induction l as [|x l IH]; [done|]. simpl. by rewrite IH. Qed.

Lemma filter_as {B} (f : B → bool) (P : B → Prop) `{∀ x, Decision (P x)} (l : list B) :
  (∀ x, f x = true ↔ P x) →
  List.filter f l = List.filter (λ x, bool_decide (P x)) l.
Proof.
  intros Hf. apply List.filter_ext. intros x.
  destruct (f x) eqn:Hx; symmetry.
  - apply bool_decide_eq_true, Hf, Hx.
  - apply bool_decide_eq_false. intros HP%Hf. congruence.
Qed.

Lemma by_search_filter (s : option string) people :
  by_search s people =
    List.filter (λ person,
                   match s with
                   | Some s =>
                       bool_decide (s = "")
                       || includes (toLowerCase (first_name person)) (toLowerCase s)
                       || includes (toLowerCase (last_name person)) (toLowerCase s)
                   | None => true
                   end) people.
Proof.
  unfold by_search. destruct s as [s|]; [|by rewrite filter_all].
  case_decide as Hs.
  - rewrite <-(filter_all people) at 1. apply List.filter_ext. intros x.
    by rewrite bool_decide_eq_true_2.
  - apply List.filter_ext. intros x. by rewrite bool_decide_eq_false_2.
Qed.

Lemma by_hobbies_filter (hs : option (list string)) people :
  by_hobbies hs people =
    List.filter (λ person,
                   match hs with
                   | Some hs =>
                       bool_decide (hs = [])
                       || existsb (λ hobby, bool_decide (hobby ∈ hobbies person)) hs
                   | None => true
                   end) people.
Proof.
  unfold by_hobbies. destruct hs as [[|h hs]|]; by rewrite ?filter_all.
Qed.

Lemma by_nationalities_filter (ns : option (list string)) people :
  by_nationalities ns people =
    List.filter (λ person,
                   match ns with
                   | Some ns => bool_decide (ns = []) || bool_decide (nationality person ∈ ns)
                   | None => true
                   end) people.
Proof.
  unfold by_nationalities. destruct ns as [[|n ns]|]; by rewrite ?filter_all.
Qed.

(** The three filters in a row select the people that fit the query. *)
Lemma filtered_fitting params st : filtered params (data st) = fitting params st.
Proof.
  unfold filtered, fitting.
  rewrite by_search_filter, by_hobbies_filter, by_nationalities_filter, !filter_twice.
  apply filter_as. intros x. unfold fits.
  rewrite !andb_true_iff.
  destruct (Query.search params) as [s|], (Query.hobbies params) as [hs|],
    (Query.nationalities params) as [ns|];
    rewrite ?orb_true_iff, ?bool_decide_eq_true, ?existsb_exists, ?Exists_exists;
    repeat setoid_rewrite bool_decide_eq_true;
    repeat setoid_rewrite <-list_elem_of_In;
    naive_solver.
Qed.

(** [getPeople] always fulfils and leaves the store alone; [total] is the
    number of stored people that fit the query, whatever the page, and
    the page holds some of them, in the order of the store. *)
Theorem getPeople_serves_the_fitting_people params st :
  ∃ r, getPeople params st = (Fulfilled r, st) ∧
       Paginated.total r = length (fitting params st) ∧
       Paginated.data r `sublist_of` fitting params st ∧
       Paginated.page r = Query.page params ∧
       Paginated.pageSize r = Query.pageSize params.
Proof.
  eexists. split; [apply getPeople_eq|]. simpl. rewrite filtered_fitting.
  repeat split. apply slice_sublist.
Qed.

Lemma page_of_eq params st :
  page_of params st =
    slice ((Query.page params - 1) * Query.pageSize params)
          ((Query.page params - 1) * Query.pageSize params + Query.pageSize params)
          (fitting params st).
Proof. unfold page_of, settles_as. rewrite getPeople_eq. simpl. by rewrite filtered_fitting. Qed.

Lemma total_pages_of_eq params st :
  total_pages_of params st
  = Some (ceil_div (length (fitting params st)) (Query.pageSize params)).
Proof.
  unfold total_pages_of, settles_as. rewrite getPeople_eq. simpl.
  by rewrite filtered_fitting.
Qed.

(** For whole numbers [page] and [pageSize]: with a page size that is
    not negative, no page holds more people than the page size, whatever
    the page number. *)
Theorem page_holds_at_most_pageSize params st :
  0 ≤ Query.pageSize params →
  (length (page_of params st) ≤ Z.to_nat (Query.pageSize params))%nat.
Proof. intros Hps. rewrite page_of_eq. by apply slice_length_window. Qed.

Lemma pages_up_to {B} (s m : nat) (l : list B) :
  concat ((λ k, take s (drop (k * s) l)) <$> seq 0 m) = take (m * s) l.
Proof.
  induction m as [|m IH]; [by rewrite take_0|].
  rewrite seq_S, fmap_app, concat_app, IH. simpl.
  rewrite app_nil_r, take_take_drop. f_equal. lia.
Qed.

(** For a whole number [pageSize] that is positive, [totalPages] is a
    whole number and the pages 1 to [totalPages], one after the other,
    are exactly the people that fit the query: nobody is left out and
    nobody comes twice. *)
Theorem pages_partition_the_fitting_people params st :
  0 < Query.pageSize params →
  ∃ tp : nat,
    total_pages_of params st = Some (Num (Z.of_nat tp)) ∧
    concat ((λ k, page_of (on_page (Z.of_nat (S k)) params) st) <$> seq 0 tp)
    = fitting params st.
Proof.
  intros Hps. set (ps := Query.pageSize params) in *.
  set (l := fitting params st).
  set (q := - ((- Z.of_nat (length l)) `div` ps)).
  assert (0 ≤ q ∧ Z.of_nat (length l) ≤ q * ps) as [Hq Hcover].
  { subst q. assert (ps ≠ 0) as Hne by lia.
    pose proof (Z.div_mod (- Z.of_nat (length l)) ps Hne).
    pose proof (Z.mod_pos_bound (- Z.of_nat (length l)) ps Hps).
    set (d := (- Z.of_nat (length l)) `div` ps) in *.
    set (r := (- Z.of_nat (length l)) `mod` ps) in *.
    split; nia. }
  exists (Z.to_nat q). split.
  - rewrite total_pages_of_eq. unfold ceil_div. rewrite decide_False by lia.
    fold l ps q. do 2 f_equal. lia.
  - transitivity (concat ((λ k, take (Z.to_nat ps) (drop (k * Z.to_nat ps) l))
                            <$> seq 0 (Z.to_nat q))).
    + f_equal. apply list_fmap_ext. intros _ k _.
      rewrite page_of_eq. change (fitting (on_page _ params) st) with l.
      simpl. fold ps. rewrite slice_between by nia. f_equal; [nia|f_equal; nia].
    + rewrite pages_up_to. apply take_ge. nia.
Qed.

(** Page 0 and the pages after the last one are empty. *)
Theorem page_outside_range_is_empty params st (tp : Z) :
  0 < Query.pageSize params →
  total_pages_of params st = Some (Num tp) →
  Query.page params = 0 ∨ tp < Query.page params →
  page_of params st = [].
Proof.
  intros Hps Htp Hpage. rewrite total_pages_of_eq in Htp. unfold ceil_div in Htp.
  rewrite decide_False in Htp by lia. injection Htp as Htp.
  rewrite page_of_eq. set (l := fitting params st) in *.
  set (ps := Query.pageSize params) in *.
  assert (ps ≠ 0) as Hne by lia.
  pose proof (Z.div_mod (- Z.of_nat (length l)) ps Hne).
  pose proof (Z.mod_pos_bound (- Z.of_nat (length l)) ps Hps).
  unfold slice. destruct Hpage as [->|Hlate].
  - apply length_zero_iff_nil. rewrite length_take, length_drop.
    repeat case_decide; lia.
  - apply length_zero_iff_nil. rewrite length_take, length_drop.
    repeat case_decide; nia.
Qed.

(** A negative page number is not refused: page [-m] counts from the
    end of the list and, when the list is long enough, holds the
    [pageSize] people that stop [m] pages before its end. *)
Theorem negative_page_counts_from_the_end params st (m : nat) :
  0 < Query.pageSize params →
  Query.page params = - Z.of_nat m →
  (1 ≤ m)%nat →
  (Z.of_nat m + 1) * Query.pageSize params ≤ Z.of_nat (length (fitting params st)) →
  page_of params st =
    take (Z.to_nat (Query.pageSize params))
         (drop (length (fitting params st)
                  - (m + 1) * Z.to_nat (Query.pageSize params))%nat
               (fitting params st)).
Proof.
  intros Hps Hpage Hm Hlong. rewrite page_of_eq, Hpage.
  set (l := fitting params st) in *. set (ps := Query.pageSize params) in *.
  unfold slice. rewrite !decide_True by nia.
  f_equal; [nia|f_equal; nia].
Qed.

(** A negative page size is not refused either: on page 1 it serves the
    whole list but its last [-pageSize] people. *)
Theorem negative_pageSize_serves_all_but_the_last params st :
  Query.page params = 1 →
  Query.pageSize params < 0 →
  page_of params st =
    take (length (fitting params st) - Z.to_nat (- Query.pageSize params))%nat
         (fitting params st).
Proof.
  intros Hpage Hps. rewrite page_of_eq, Hpage. simpl.
  rewrite slice_from_start, decide_True by lia. f_equal. lia.
Qed.

End People.

(** * The top lists *)

Section TopLists.
Import Types MockData Counting.
Implicit Types (keys : list string) (counts : list (string * nat)) (k : string).

Lemma occurrences_snoc k k' keys :
  occurrences k (keys ++ [k']) = (occurrences k keys + if decide (k' = k) then 1 else 0)%nat.
Proof.
  unfold occurrences. rewrite List.filter_app, length_app. simpl.
  case_decide; [rewrite bool_decide_eq_true_2|rewrite bool_decide_eq_false_2]; done.
Qed.

Lemma occurrences_pos k keys : (0 < occurrences k keys)%nat ↔ k ∈ keys.
Proof.
  unfold occurrences. induction keys as [|k' keys IH]; simpl.
  - split; [lia|by intros ?%elem_of_nil].
  - rewrite elem_of_cons. case_bool_decide; simpl; [naive_solver lia|].
    rewrite IH. naive_solver.
Qed.

Lemma elem_of_bump k k' n counts :
  NoDup counts.*1 →
  (k', n) ∈ bump k counts ↔
    (k' ≠ k ∧ (k', n) ∈ counts) ∨
    (k' = k ∧ ((∃ m, (k, m) ∈ counts ∧ n = S m) ∨ ((k ∉ counts.*1) ∧ n = 1%nat))).
Proof.
  induction counts as [|[k0 n0] counts IH]; intros Hnd; cbn [bump].
  - rewrite list_elem_of_singleton. set_solver.
  - rewrite fmap_cons in Hnd. apply NoDup_cons in Hnd as [Hk0 Hnd]. specialize (IH Hnd).
    assert (∀ m, (k0, m) ∈ counts → False) as Hk0'.
    { intros m Hm. apply Hk0, list_elem_of_fmap. by exists (k0, m). }
    rewrite fmap_cons, not_elem_of_cons. simpl.
    case_decide as Hk; [subst k0|]; rewrite !elem_of_cons; [|rewrite IH];
      setoid_rewrite elem_of_cons; naive_solver.
Qed.

Lemma bump_keys_NoDup k counts : NoDup counts.*1 → NoDup (bump k counts).*1.
Proof.
  induction counts as [|[k0 n0] counts IH]; intros Hnd; simpl.
  - apply NoDup_singleton.
  - apply NoDup_cons in Hnd as [Hk0 Hnd]. case_decide as Hk; simpl.
    + by apply NoDup_cons.
    + apply NoDup_cons. split; [|by apply IH].
      intros ((k1 & n1) & Heq & Hin)%list_elem_of_fmap. simpl in Heq. subst k1.
      apply elem_of_bump in Hin; [|done].
      destruct Hin as [[_ Hin]|[? _]]; [|done].
      apply Hk0, list_elem_of_fmap. by exists (k0, n1).
Qed.

(** The tally holds each key once, with the number of its occurrences. *)
Lemma tally_counts keys :
  NoDup (tally keys).*1 ∧
  ∀ k n, (k, n) ∈ tally keys ↔ n = occurrences k keys ∧ (0 < n)%nat.
Proof.
  unfold tally. induction keys as [|k' keys IH] using rev_ind.
  - split; [apply NoDup_nil_2|]. intros k n. simpl. split.
    + by intros ?%elem_of_nil.
    + unfold occurrences. simpl. lia.
  - destruct IH as [Hnd IH]. rewrite foldl_snoc. split; [by apply bump_keys_NoDup|].
    intros k n. rewrite elem_of_bump by done. rewrite occurrences_snoc.
    setoid_rewrite IH. split.
    + intros [[Hne [-> Hpos]]|[-> [(m & [-> Hpos] & ->)|[Hnin ->]]]].
      * rewrite decide_False by done. lia.
      * rewrite decide_True by done. lia.
      * rewrite decide_True by done. split; [|lia].
        destruct (occurrences k' keys) as [|o] eqn:Ho; [done|].
        destruct Hnin. apply list_elem_of_fmap. exists (k', S o).
        split; [done|]. apply IH. lia.
    + intros [-> Hpos]. destruct (decide (k' = k)) as [->|Hne].
      * right. split; [done|].
        destruct (occurrences k keys) as [|o] eqn:Ho.
        -- right. split; [|done].
           intros ((k1 & n1) & Heq & Hin)%list_elem_of_fmap. simpl in Heq. subst k1.
           apply IH in Hin. lia.
        -- left. exists (S o). split; [split; [done|lia]|lia].
      * left. split; [done|]. split; lia.
Qed.

Lemma put_in_order_Permutation e (sorted : list (string * nat)) :
  put_in_order e sorted ≡ₚ e :: sorted.
Proof.
  induction sorted as [|x sorted IH]; simpl; [done|].
  case_decide; [|done]. rewrite IH. apply Permutation_swap.
Qed.

Lemma sort_by_count_Permutation counts : sort_by_count counts ≡ₚ counts.
Proof.
  unfold sort_by_count. induction counts as [|e counts IH]; simpl; [done|].
  by rewrite put_in_order_Permutation, IH.
Qed.

Lemma put_in_order_sorted e (sorted : list (string * nat)) :
  StronglySorted (λ a b, (b.2 ≤ a.2)%nat) sorted →
  StronglySorted (λ a b, (b.2 ≤ a.2)%nat) (put_in_order e sorted).
Proof.
  induction sorted as [|x sorted IH]; intros Hs; simpl.
  - repeat constructor.
  - apply StronglySorted_cons in Hs as [Hx Hs]. case_decide as Hlt.
    + apply StronglySorted_cons. split; [|by apply IH].
      rewrite put_in_order_Permutation. constructor; [lia|done].
    + apply StronglySorted_cons. split; [|by apply StronglySorted_cons].
      constructor; [lia|]. eapply Forall_impl; [exact Hx|]. simpl. lia.
Qed.

Lemma sort_by_count_sorted counts :
  StronglySorted (λ a b, (b.2 ≤ a.2)%nat) (sort_by_count counts).
Proof.
  unfold sort_by_count. induction counts as [|e counts IH]; simpl; [constructor|].
  by apply put_in_order_sorted.
Qed.

Lemma sorted_keys_ranked keys (l : list (string * nat)) :
  Forall (λ e, e.2 = occurrences e.1 keys) l →
  StronglySorted (λ a b, (b.2 ≤ a.2)%nat) l →
  StronglySorted (λ k k', (occurrences k' keys ≤ occurrences k keys)%nat) l.*1.
Proof.
  induction l as [|e l IH]; intros Hocc Hs; [constructor|].
  apply Forall_cons in Hocc as [He Hocc]. apply StronglySorted_cons in Hs as [Hall Hs].
  rewrite fmap_cons. apply StronglySorted_cons. split; [|by apply IH].
  apply Forall_fmap. rewrite Forall_forall in Hall, Hocc. apply Forall_forall.
  intros e' He'. simpl. rewrite <-He, <-(Hocc e' He'). by apply Hall.
Qed.

(** What the pipeline returns: keys that occur, each once, the more
    frequent first, and no key that was cut off is more frequent than a
    key that was kept. *)
Lemma top_ranked keys (limit : Z) :
  NoDup (top keys limit) ∧
  top keys limit ⊆ keys ∧
  StronglySorted (λ k k', (occurrences k' keys ≤ occurrences k keys)%nat) (top keys limit) ∧
  (∀ k k', k ∈ top keys limit → k' ∈ keys → k' ∉ top keys limit →
           (occurrences k' keys ≤ occurrences k keys)%nat).
Proof.
  unfold top. rewrite slice_from_start.
  set (m := Z.to_nat _). set (sorted := sort_by_count (tally keys)).
  destruct (tally_counts keys) as [Hnd Hcount].
  assert (∀ k n, (k, n) ∈ sorted ↔ n = occurrences k keys ∧ (0 < n)%nat) as Hsorted.
  { intros k n. unfold sorted. by rewrite sort_by_count_Permutation. }
  assert (NoDup sorted.*1) as Hnd'.
  { unfold sorted. by rewrite sort_by_count_Permutation. }
  assert (StronglySorted (λ a b, (b.2 ≤ a.2)%nat) sorted) as Hs
    by apply sort_by_count_sorted.
  assert (∀ k, k ∈ (take m sorted).*1 → (k, occurrences k keys) ∈ take m sorted) as Hkept.
  { intros k ((k1 & n) & -> & Hin)%list_elem_of_fmap. simpl.
    assert ((k1, n) ∈ sorted) as Hin' by (by eapply subseteq_take).
    apply Hsorted in Hin' as [-> _]. done. }
  repeat split.
  - eapply sublist_NoDup; [exact Hnd'|apply fmap_sublist, sublist_take].
  - intros k Hk%Hkept. apply occurrences_pos.
    assert ((k, occurrences k keys) ∈ sorted) as Hin
      by (by eapply subseteq_take).
    apply Hsorted in Hin. lia.
  - rewrite <-(take_drop m sorted) in Hs. apply StronglySorted_app_1_l in Hs.
    assert (Forall (λ e, e.2 = occurrences e.1 keys) (take m sorted)) as Hocc.
    { apply Forall_forall. intros [k n] Hin. simpl.
      assert ((k, n) ∈ sorted) as Hin' by (by eapply subseteq_take).
      by apply Hsorted in Hin' as [-> _]. }
    by apply sorted_keys_ranked.
  - intros k k' Hk%Hkept Hk' Hout.
    apply occurrences_pos in Hk'.
    assert ((k', occurrences k' keys) ∈ sorted) as Hin' by (by apply Hsorted).
    rewrite <-(take_drop m sorted) in Hin', Hs.
    apply elem_of_app in Hin' as [Hin'|Hin'].
    + destruct Hout. apply list_elem_of_fmap. by exists (k', occurrences k' keys).
    + by apply (StronglySorted_app_1_elem_of _ _ _ _ _ Hs Hk Hin').
Qed.

Lemma top_length keys (limit : Z) :
  (0 ≤ limit)%Z → length (top keys limit) ≤ Z.to_nat limit.
Proof.
  intros Hl. unfold top. rewrite length_fmap, slice_from_start, decide_False by lia.
  rewrite length_take. lia.
Qed.

Lemma getTopHobbies_top data limit :
  getTopHobbies data limit = top (all_hobbies data) (default 20%Z limit).
Proof.
  unfold getTopHobbies, top, tally, all_hobbies. do 3 f_equal.
  generalize (@nil (string * nat)). induction data as [|person data IH]; intros acc; [done|].
  simpl. rewrite foldl_app. apply IH.
Qed.

Lemma getTopNationalities_top data limit :
  getTopNationalities data limit = top (nationality <$> data) (default 20%Z limit).
Proof.
  unfold getTopNationalities, top, tally. do 3 f_equal.
  generalize (@nil (string * nat)). induction data as [|person data IH]; intros acc; [done|].
  simpl. apply IH.
Qed.

(** [getTopHobbies] returns hobbies that people of the data have, each
    once and the more frequent first; a hobby it leaves out is never
    more frequent than one it returns.  This holds for every limit. *)
Theorem top_hobbies_are_the_most_frequent data limit :
  NoDup (getTopHobbies data limit) ∧
  getTopHobbies data limit ⊆ all_hobbies data ∧
  StronglySorted
    (λ h h', occurrences h' (all_hobbies data) ≤ occurrences h (all_hobbies data))
    (getTopHobbies data limit) ∧
  (∀ h h', h ∈ getTopHobbies data limit → h' ∈ all_hobbies data →
           h' ∉ getTopHobbies data limit →
           occurrences h' (all_hobbies data) ≤ occurrences h (all_hobbies data)).
Proof. rewrite getTopHobbies_top. apply top_ranked. Qed.

(** The same for [getTopNationalities] and the nationalities of the
    people. *)
Theorem top_nationalities_are_the_most_frequent data limit :
  NoDup (getTopNationalities data limit) ∧
  getTopNationalities data limit ⊆ nationality <$> data ∧
  StronglySorted
    (λ n n', occurrences n' (nationality <$> data) ≤ occurrences n (nationality <$> data))
    (getTopNationalities data limit) ∧
  (∀ n n', n ∈ getTopNationalities data limit → n' ∈ nationality <$> data →
           n' ∉ getTopNationalities data limit →
           occurrences n' (nationality <$> data) ≤ occurrences n (nationality <$> data)).
Proof. rewrite getTopNationalities_top. apply top_ranked. Qed.

End TopLists.

(** * Filling, emptying and querying the store *)

Section StoreLifecycle.
Import Types MockData InMemoryStorage PeopleQueries PeopleApi Counting Js.
Context `{Runtime}.
Implicit Types (st : Store) (params : Query.t).

(** The first call generates [count] people and keeps them; every later
    call returns those very people, whatever count it is given. *)
Theorem generateMockData_generates_once (count count' : option Z) :
  let first := generateMockData count None in
  length first.1 = Z.to_nat (default 1000%Z count) ∧
  first.2 = Some first.1 ∧
  generateMockData count' first.2 = first.
Proof. simpl. by rewrite length_fmap, length_seq. Qed.

Lemma initialize_eq st :
  state_after initialize st =
    mkStore (default (faker <$> seq 0 1000) (cachedData st))
            (Some (default (faker <$> seq 0 1000) (cachedData st))).
Proof. unfold state_after, initialize, await, get_state. simpl. by destruct (cachedData st). Qed.

(** A new storage holds 1000 people once initialized; [cleanup] empties
    it, so that every query then finds nobody; and initializing it again
    brings back the people it held before, not newly drawn ones. *)
Theorem storage_is_refilled_from_the_cache st params :
  let filled := state_after initialize st in
  let emptied := state_after cleanup filled in
  length (data (state_after initialize new_storage)) = 1000%nat ∧
  data emptied = [] ∧
  fitting params emptied = [] ∧
  state_after initialize emptied = filled.
Proof.
  intros filled emptied. subst emptied filled. rewrite !initialize_eq.
  change (cachedData new_storage) with (@None (list Person)).
  split; [cbn [default from_option data]; by rewrite length_fmap, length_seq|].
  split; [done|]. split; [done|].
  by destruct (cachedData st).
Qed.

Lemma fitting_sublist params st : fitting params st `sublist_of` data st.
Proof.
  unfold fitting. induction (data st) as [|x l IH]; simpl; [done|].
  case_bool_decide; by constructor.
Qed.

Lemma getFilterOptions_eq st :
  getFilterOptions st =
    (Fulfilled (mkFilterOptions (top (all_hobbies (data st)) 20)
                                (top (nationality <$> data st) 20)), st).
Proof.
  unfold getFilterOptions, await, get_state, resolve. simpl.
  by rewrite getTopHobbies_top, getTopNationalities_top.
Qed.

(** [getFilterOptions] offers at most 20 hobbies and 20 nationalities,
    and each of them, used alone as a filter, fits somebody in the
    store. *)
Theorem offered_filters_fit_somebody st :
  ∃ options,
    getFilterOptions st = (Fulfilled options, st) ∧
    length (top_hobbies options) ≤ 20 ∧
    length (top_nationalities options) ≤ 20 ∧
    Forall (λ h, ∀ p ps, fitting (Query.mk p ps (Some [h]) None None) st ≠ [])
           (top_hobbies options) ∧
    Forall (λ n, ∀ p ps, fitting (Query.mk p ps None (Some [n]) None) st ≠ [])
           (top_nationalities options).
Proof.
  eexists. split; [apply getFilterOptions_eq|]. simpl.
  split; [apply (top_length _ 20); lia|]. split; [apply (top_length _ 20); lia|].
  split; apply Forall_forall.
  - intros h Hh p ps.
    apply top_ranked, list_elem_of_bind in Hh as (person & Hhobby & Hperson).
    apply (elem_of_not_nil person). unfold fitting.
    apply list_elem_of_In, List.filter_In. split; [by apply list_elem_of_In|].
    apply bool_decide_eq_true. unfold fits. simpl. repeat split.
    right. apply Exists_cons_hd. done.
  - intros n Hn p ps.
    apply top_ranked, list_elem_of_fmap in Hn as (person & -> & Hperson).
    apply (elem_of_not_nil person). unfold fitting.
    apply list_elem_of_In, List.filter_In. split; [by apply list_elem_of_In|].
    apply bool_decide_eq_true. unfold fits. simpl. repeat split.
    right. apply list_elem_of_singleton. done.
Qed.

(** [GET /people] without any parameter answers 200 with the first 20
    stored people, the size of the store as total, page 1 of size 20. *)
Lemma people_listing_defaults st :
  get_people (mkPeopleQuery None None QAbsent QAbsent QAbsent) st =
    (Fulfilled (Json 200 (Paginated.mk (take 20 (data st)) (length (data st)) 1 20
                            (ceil_div (length (data st)) 20))),
     st).
Proof.
  unfold get_people, try_catch, await, getPeople_with_search.
  cbn [q_search q_page q_pageSize q_hobbies q_nationalities as_array or_undefined default
       from_option].
  rewrite decide_True by done. rewrite getPeople_eq. simpl.
  unfold filtered. simpl. by rewrite slice_from_start.
Qed.

Lemma getPeople_with_search_fulfils (page pageSize : Z) hobbies nationalities
    (search : QueryValue) st :
  (∀ l, search ≠ QArray l) →
  ∃ r, getPeople_with_search page pageSize hobbies nationalities search st = (Fulfilled r, st) ∧
       Paginated.page r = page ∧ Paginated.pageSize r = pageSize ∧
       Paginated.data r `sublist_of` data st.
Proof.
  intros Hsearch. unfold getPeople_with_search.
  destruct search as [|s|l]; [| |by destruct (Hsearch l)];
    rewrite getPeople_eq; (eexists; split; [reflexivity|]); simpl; repeat split;
    (etrans; [apply slice_sublist|]); rewrite filtered_fitting; apply fitting_sublist.
Qed.

(** For whole-number [page] and [pageSize] and parameters that are
    strings or arrays of strings: [GET /people] answers 500 with
    "Internal server error" exactly when [search] was given several
    times, and leaves the store alone; otherwise it answers 200 with
    stored people in the order of the store, page 1 and page size 20
    unless the query says otherwise.  A [hobbies] or [nationalities]
    parameter given once selects as the same parameter given as an array
    of one. *)
Theorem people_listing_reply (query : PeopleQuery) (h n : string) st :
  match q_search query with
  | QArray _ =>
      get_people query st =
        (Fulfilled (Failure 500 (JsObject [("error", JsString "Internal server error")])),
         st)
  | QString _ | QAbsent =>
      ∃ r, get_people query st = (Fulfilled (Json 200 r), st) ∧
           Paginated.page r = default 1%Z (q_page query) ∧
           Paginated.pageSize r = default 20%Z (q_pageSize query) ∧
           Paginated.data r `sublist_of` data st
  end ∧
  get_people (mkPeopleQuery (q_page query) (q_pageSize query)
                (QString h) (QString n) (q_search query)) st
  = get_people (mkPeopleQuery (q_page query) (q_pageSize query)
                  (QArray (if decide (h = "") then [] else [h]))
                  (QArray (if decide (n = "") then [] else [n])) (q_search query)) st.
Proof.
  split; [|done].
  unfold get_people, try_catch, await.
  destruct (q_search query) as [|s|l] eqn:Hs; [| |done].
  - destruct (getPeople_with_search_fulfils
                (default 1%Z (q_page query)) (default 20%Z (q_pageSize query))
                (or_undefined (as_array (q_hobbies query)))
                (or_undefined (as_array (q_nationalities query))) (QString "") st)
      as (r & -> & Hr); [done|]. by exists r.
  - destruct (getPeople_with_search_fulfils
                (default 1%Z (q_page query)) (default 20%Z (q_pageSize query))
                (or_undefined (as_array (q_hobbies query)))
                (or_undefined (as_array (q_nationalities query))) (QString s) st)
      as (r & -> & Hr); [done|]. by exists r.
Qed.

End StoreLifecycle.

(** * The pipeline from request to result *)

Section Pipeline.
Import InMemoryQueue ProcessWorker Server.
Implicit Types (st : State) (socket event : string) (w : nat).

(** The failure of a worker is broadcast like its success: the record
    of the id is failed with the message of the error, and every socket
    connected at that moment receives one [process-result] event, with
    status error and the message behind "Error: ". *)
Theorem failure_reaches_each_subscriber_once st i message socket :
  socket ∈ connected st →
  let st' := state_after (on_worker_error i message) st in
  queue st' = state_after (fail i message) (queue st) ∧
  received socket "process-result" st' =
    received socket "process-result" st ++
    [mkProcessResult i "error" ("Error: " +:+ message)].
Proof.
  intros Hin st'. subst st'. unfold state_after at 1 3.
  rewrite on_worker_error_eq. simpl. split; [done|].
  unfold received. simpl. rewrite omap_app. f_equal.
  apply copies_for_member; [apply NoDup_elements|by apply elem_of_elements].
Qed.

Lemma handle_worker_message w response st i :
  listeners st !! w = Some i →
  handle (WorkerMessageEv w response) st = on_worker_message w response st.
Proof. intros Hw. unfold handle, await, get_state. by rewrite Hw. Qed.

Lemma handle_worker_error w message st i :
  listeners st !! w = Some i →
  handle (WorkerErrorEv w message) st = on_worker_error i message st.
Proof. intros Hw. unfold handle, await, get_state. by rewrite Hw. Qed.

(** From request to result: for a task the queue holds, the handler of
    [process-request] starts a worker and sends it the id; when the
    reply of [processWorker] to that message comes back, the record is
    completed with the text the worker built for this id, no worker is
    tracked under the id any more and the worker was terminated. *)
Theorem dispatched_task_is_completed st socket i it iso :
  queue st !! i = Some it →
  let w := spawned st in
  let message := mkWorkerMessage i (JsObject []) in
  let dispatched := state_after (handle (ProcessRequest socket i)) st in
  let answered := state_after (handle (WorkerMessageEv w (reply message iso))) dispatched in
  posted dispatched = posted st ++ [(w, message)] ∧
  queue answered !! i
    = Some (mkItem completed (data it)
              (Some ("Processed result for request " +:+ i +:+ " at " +:+ iso))
              (error it)) ∧
  requestQueue answered !! i = None ∧
  terminated answered = terminated st ++ [w].
Proof.
  intros Hi w message dispatched answered.
  assert (dispatched =
            mkState (queue st) (<[i := mkTracked w (Some socket)]> (requestQueue st))
              (S w) (<[w := i]> (listeners st)) (posted st ++ [(w, message)])
              (terminated st) (connected st) (inbox st) (console st)) as Hd.
  { unfold dispatched, state_after. simpl handle. by rewrite on_process_request_eq. }
  assert (answered = state_after (on_worker_message w (reply message iso)) dispatched) as ->.
  { unfold answered, state_after. erewrite handle_worker_message; [done|].
    rewrite Hd. simpl. apply lookup_insert_eq. }
  unfold state_after. rewrite on_worker_message_eq, Hd. simpl.
  rewrite (complete_present _ _ _ _ Hi), lookup_insert_eq, lookup_delete_eq.
  done.
Qed.

End Pipeline.

(** * What every run of the server keeps true *)

Section Consistency.
Import InMemoryQueue ProcessWorker Server Process.
Implicit Types (st : State) (socket event : string) (w : nat).

(** An admission writes the queue and nothing else. *)
Lemma react_post now (rnd36 : string) date st :
  state_after (react (PostProcess now rnd36 date)) st =
    mkState
      (<[Api.make_request_id now rnd36 :=
           mkItem pending (JsObject [("timestamp", JsDate date)]) None None]> (queue st))
      (requestQueue st) (spawned st) (listeners st) (posted st)
      (terminated st) (connected st) (inbox st) (console st).
Proof. reflexivity. Qed.

Lemma consistent_boot : consistent boot.
Proof.
  unfold consistent, boot. simpl.
  repeat split; try apply map_Forall_empty; try apply Forall_nil_2; done.
Qed.

Lemma wire_after_broadcast st (p : ProcessResult) :
  status p = "completed" ∨ status p = "error" →
  Forall (λ '(_, (event, payload)),
            event = "process-result"
            ∧ (status payload = "completed" ∨ status payload = "error"))
         (inbox st) →
  Forall (λ '(_, (event, payload)),
            event = "process-result"
            ∧ (status payload = "completed" ∨ status payload = "error"))
         (inbox st ++ ((λ s, (s, ("process-result", p))) <$> elements (connected st))).
Proof.
  intros Hp Hst. apply Forall_app. split; [done|].
  apply Forall_fmap, Forall_forall. intros s _. simpl. done.
Qed.

Ltac state_fields :=
  cbn [fst snd queue requestQueue spawned listeners posted terminated connected inbox console].

Ltac split_consistent :=
  unfold consistent; state_fields;
  split; [|split; [|split; [|split; [|split]]]].

Lemma react_keeps_consistent input st :
  consistent st → consistent (state_after (react input) st).
Proof.
  intros (Hseq & Hposted & Hlisten & Htracked & Hterm & Hwire).
  destruct input as [now rnd36 date|[s|s|s i|w response|w message]].
  - rewrite react_post. unfold consistent. simpl. done.
  - unfold consistent. simpl. done.
  - unfold consistent. simpl. done.
  - unfold react, handle, state_after. rewrite on_process_request_eq.
    split_consistent.
    + rewrite fmap_app, Hseq, seq_S. done.
    + apply Forall_app. split.
      * rewrite Forall_forall in Hposted. apply Forall_forall. intros [w m] Hin.
        specialize (Hposted _ Hin). simpl in Hposted. destruct Hposted as [Hw Hm].
        split; [|done]. rewrite lookup_insert_ne; [done|].
        apply map_Forall_lookup_1 with (i := w) (x := msg_id m) in Hlisten; [lia|done].
      * constructor; [|constructor]. split; [apply lookup_insert_eq|done].
    + apply map_Forall_insert_2; [lia|].
      eapply map_Forall_impl; [exact Hlisten|]. simpl. lia.
    + apply map_Forall_insert_2; [split; [simpl; lia|apply lookup_insert_eq]|].
      eapply map_Forall_impl; [exact Htracked|]. simpl. intros j entry [Hlt Hl].
      split; [lia|]. rewrite lookup_insert_ne; [done|lia].
    + eapply Forall_impl; [exact Hterm|]. simpl. lia.
    + done.
  - unfold react, handle, await, get_state, state_after.
    destruct (listeners st !! w) as [i|] eqn:Hw; [|unfold consistent; simpl; done].
    rewrite on_worker_message_eq. split_consistent; try done.
    + by apply map_Forall_delete.
    + apply Forall_app. split; [done|]. constructor; [|constructor].
      by apply (map_Forall_lookup_1 _ _ _ _ Hlisten Hw).
    + apply wire_after_broadcast; [by left|done].
  - unfold react, handle, await, get_state, state_after.
    destruct (listeners st !! w) as [i|] eqn:Hw; [|unfold consistent; simpl; done].
    rewrite on_worker_error_eq. split_consistent; try done.
    + by apply map_Forall_delete.
    + apply wire_after_broadcast; [by right|done].
Qed.

(** Whatever reaches the process, admissions and events in any order:
    the workers are numbered as they are created and each is sent
    exactly one message, for the id its listeners were registered with;
    a tracked or terminated worker is one that was created; and the
    sockets are sent nothing but [process-result] events with status
    completed or error. *)
Theorem server_stays_consistent (inputs : list Input) :
  consistent (Process.run inputs boot).
Proof.
  unfold Process.run. induction inputs as [|input inputs IH] using rev_ind.
  - apply consistent_boot.
  - rewrite foldl_snoc. by apply react_keeps_consistent.
Qed.

End Consistency.

(** * Stopping the process *)

Section Shutdown.
Import InMemoryQueue ProcessWorker Server Process.
Implicit Types (st : State) (p : Process.t) (w : nat).

Lemma terminate_each (entries : list (string * Tracked)) st :
  foldr (λ entry rest, terminate (worker entry.2) ;;; rest) (resolve tt) entries st
  = (Fulfilled tt,
     mkState (queue st) (requestQueue st) (spawned st) (listeners st) (posted st)
       (terminated st ++ ((λ entry, worker entry.2) <$> entries))
       (connected st) (inbox st) (console st)).
Proof.
  revert st. induction entries as [|entry entries IH]; intros st; simpl.
  - unfold resolve. rewrite app_nil_r. by destruct st.
  - unfold await, terminate at 1. rewrite IH. simpl. by rewrite <-app_assoc.
Qed.

Lemma terminate_tracked_eq st :
  terminate_tracked st
  = (Fulfilled tt,
     mkState (queue st) (requestQueue st) (spawned st) (listeners st) (posted st)
       (terminated st ++ ((λ entry, worker entry.2) <$> map_to_list (requestQueue st)))
       (connected st) (inbox st) (console st)).
Proof.
  transitivity (foldr (λ entry rest, terminate (worker entry.2) ;;; rest) (resolve tt)
                  (map_to_list (requestQueue st)) st); [reflexivity|apply terminate_each].
Qed.

Lemma on_http_closed_eq p :
  state_after on_http_closed p =
    Process.mk
      (mkState ∅ (requestQueue (server p)) (spawned (server p)) (listeners (server p))
         (posted (server p))
         (terminated (server p)
            ++ ((λ entry, worker entry.2) <$> map_to_list (requestQueue (server p))))
         (connected (server p)) (inbox (server p)) (console (server p)))
      (InMemoryStorage.mkStore [] (InMemoryStorage.cachedData (storage p)))
      (Some 0%Z).
Proof.
  unfold state_after, on_http_closed.
  unfold await at 1, in_server at 1. rewrite terminate_tracked_eq. reflexivity.
Qed.

(** When the HTTP server has closed, [terminate] is called on the
    tracked workers and on no other, the storage and the queue are
    emptied, and the process exits with code 0. *)
Theorem shutdown_releases_the_tracked_workers p w :
  let stopped := state_after on_http_closed p in
  exited stopped = Some 0%Z ∧
  queue (server stopped) = ∅ ∧
  InMemoryStorage.data (storage stopped) = [] ∧
  (w ∈ terminated (server stopped) ↔
     w ∈ terminated (server p)
     ∨ ∃ i entry, requestQueue (server p) !! i = Some entry ∧ worker entry = w).
Proof.
  intros stopped. subst stopped. rewrite on_http_closed_eq. simpl.
  repeat split; rewrite elem_of_app, list_elem_of_fmap.
  - intros [Hin|((i & entry) & -> & Hin%elem_of_map_to_list)]; [by left|].
    right. by exists i, entry.
  - intros [Hin|(i & entry & Hin & <-)]; [by left|].
    right. exists (i, entry). split; [done|]. by apply elem_of_map_to_list.
Qed.

(** A second [process-request] for an id replaces the entry of the
    first worker: the first worker was sent the task, but from then on
    it is tracked nowhere, and the shutdown terminates the second worker
    only. *)
Theorem displaced_worker_is_not_released
    (inputs : list Input) socket socket' i (store : InMemoryStorage.Store) :
  let st := Process.run inputs boot in
  let w := spawned st in
  let twice := Server.run [ProcessRequest socket i; ProcessRequest socket' i] st in
  let stopped := state_after on_http_closed (Process.mk twice store None) in
  (w, mkWorkerMessage i (JsObject [])) ∈ posted (server stopped) ∧
  requestQueue twice !! i = Some (mkTracked (S w) (Some socket')) ∧
  w ∉ terminated (server stopped) ∧
  S w ∈ terminated (server stopped).
Proof.
  intros st w twice stopped.
  destruct (server_stays_consistent inputs) as (_ & _ & _ & Htracked & Hterm & _).
  fold st in Htracked, Hterm. fold w in Htracked, Hterm.
  assert (twice =
            mkState (queue st)
              (<[i := mkTracked (S w) (Some socket')]> (requestQueue st))
              (S (S w))
              (<[S w := i]> (<[w := i]> (listeners st)))
              ((posted st ++ [(w, mkWorkerMessage i (JsObject []))])
                 ++ [(S w, mkWorkerMessage i (JsObject []))])
              (terminated st) (connected st) (inbox st) (console st)) as Htwice.
  { unfold twice, Server.run. simpl. unfold state_after.
    rewrite !on_process_request_eq. simpl. by rewrite insert_insert_eq. }
  assert (requestQueue twice !! i = Some (mkTracked (S w) (Some socket'))) as Hi.
  { rewrite Htwice. simpl. apply lookup_insert_eq. }
  split; [|split; [exact Hi|split]].
  - subst stopped. rewrite on_http_closed_eq, Htwice. simpl.
    rewrite !elem_of_app, !list_elem_of_singleton. by left; right.
  - intros Hin.
    apply (shutdown_releases_the_tracked_workers (Process.mk twice store None) w)
      in Hin as [Hin|(j & entry & Hj & Hw)]; simpl in *.
    + rewrite Htwice in Hin. simpl in Hin.
      rewrite Forall_forall in Hterm. specialize (Hterm _ Hin). lia.
    + rewrite Htwice in Hj. simpl in Hj.
      destruct (decide (j = i)) as [->|Hne].
      * rewrite lookup_insert_eq in Hj. injection Hj as <-. simpl in Hw. lia.
      * rewrite lookup_insert_ne in Hj by done.
        destruct (Htracked _ _ Hj) as [Hlt _]. lia.
  - apply (shutdown_releases_the_tracked_workers (Process.mk twice store None) (S w)).
    right. by exists i, (mkTracked (S w) (Some socket')).
Qed.

End Shutdown.

(** * The list of requests on the client *)

Section ClientList.
Import ProcessRequests.
Implicit Types (requests prev : list ProcessRequest) (data : Server.ProcessResult).

(** A [process-result] event keeps the requests of the list and their
    order; it changes nothing when no request of the list has its id;
    and receiving it a second time changes nothing more. *)
Theorem result_event_touches_only_its_request data prev :
  id <$> on_process_result data prev = id <$> prev ∧
  (Server.id data ∉ id <$> prev → on_process_result data prev = prev) ∧
  on_process_result data (on_process_result data prev) = on_process_result data prev.
Proof.
  unfold on_process_result. repeat split.
  - rewrite <-list_fmap_compose. apply list_fmap_ext. intros _ req _. simpl.
    by case_decide.
  - intros Hnin. rewrite <-(list_fmap_id prev) at 2.
    apply list_fmap_ext. intros k req Hreq. simpl. case_decide as Hid; [|done].
    destruct Hnin. rewrite <-Hid. apply list_elem_of_fmap. exists req.
    split; [done|]. by eapply list_elem_of_lookup_2.
  - rewrite <-list_fmap_compose. apply list_fmap_ext. intros _ req _. simpl.
    destruct (decide (id req = Server.id data)) as [Hid|Hid]; simpl.
    + by rewrite decide_True.
    + by rewrite decide_False.
Qed.

Lemma stats_of_known_statuses requests :
  Forall (λ r, status r = "pending" ∨ status r = "completed" ∨ status r = "error") requests →
  pending (stats requests) + completed (stats requests) + error (stats requests)
  = total (stats requests).
Proof.
  unfold stats. simpl. induction 1 as [|r requests Hr _ IH]; [done|]. simpl.
  destruct Hr as [-> | [-> | ->]]; simpl; lia.
Qed.

(** As long as the results that come in carry the status completed or
    error, which is all the server sends, every request of the list is
    counted in exactly one of the three counters: pending, completed and
    error add up to the total. *)
Theorem stats_add_up (changes : list Change) :
  Forall (λ c, match c with
               | Created _ => True
               | Result data => Server.status data = "completed" ∨ Server.status data = "error"
               end) changes →
  pending (stats (after changes)) + completed (stats (after changes))
    + error (stats (after changes))
  = total (stats (after changes)).
Proof.
  intros Hchanges. apply stats_of_known_statuses.
  unfold after. induction changes as [|c changes IH] using rev_ind; [constructor|].
  apply Forall_app in Hchanges as [Hchanges Hc%Forall_inv].
  rewrite foldl_snoc. specialize (IH Hchanges).
  destruct c as [i|data]; simpl.
  - constructor; [by left|done].
  - unfold on_process_result. apply Forall_fmap.
    eapply Forall_impl; [exact IH|]. intros req Hreq. simpl.
    case_decide; [|done]. simpl. destruct Hc as [-> | ->]; auto.
Qed.

End ClientList.

(** * Two admissions *)

Section TwoAdmissions.
Import InMemoryQueue.
Local Open Scope Z_scope.

(** Two admissions that differ in the clock value or in the random
    suffix get different ids, and both records are in the table, pending,
    each with its own timestamp. *)
Theorem admissions_do_not_collide now (rnd36 : string) date now' (rnd36' : string) date'
    (q : gmap string Item) :
  (now, String.substring 2 9 rnd36) ≠ (now', String.substring 2 9 rnd36') →
  let q2 := state_after (Api.post_process now' rnd36' date')
              (state_after (Api.post_process now rnd36 date) q) in
  Api.make_request_id now rnd36 ≠ Api.make_request_id now' rnd36' ∧
  q2 !! Api.make_request_id now rnd36
    = Some (mkItem pending (JsObject [("timestamp", JsDate date)]) None None) ∧
  q2 !! Api.make_request_id now' rnd36'
    = Some (mkItem pending (JsObject [("timestamp", JsDate date')]) None None).
Proof.
  intros Hne q2.
  assert (Api.make_request_id now rnd36 ≠ Api.make_request_id now' rnd36') as Hid.
  { intros [-> Hs]%make_request_id_inj. apply Hne. by rewrite Hs. }
  split; [exact Hid|].
  assert (q2 = <[Api.make_request_id now' rnd36' :=
                   mkItem pending (JsObject [("timestamp", JsDate date')]) None None]>
                 (<[Api.make_request_id now rnd36 :=
                      mkItem pending (JsObject [("timestamp", JsDate date)]) None None]> q))
    as -> by reflexivity.
  split; [|apply lookup_insert_eq].
  rewrite lookup_insert_ne by done. apply lookup_insert_eq.
Qed.

Lemma admissions_do_not_collide_witness :
  let q2 := state_after (Api.post_process 1700000000000 "0.zzz999yyy" 1700000000001)
              (state_after (Api.post_process 1700000000000 "0.abc123xyz" 1700000000000)
                 new_queue) in
  q2 !! "req_1700000000000_abc123xyz"
    = Some (mkItem pending (JsObject [("timestamp", JsDate 1700000000000)]) None None) ∧
  q2 !! "req_1700000000000_zzz999yyy"
    = Some (mkItem pending (JsObject [("timestamp", JsDate 1700000000001)]) None None).
Proof.
  intros q2.
  refine (proj2 (admissions_do_not_collide 1700000000000 "0.abc123xyz" 1700000000000
                   1700000000000 "0.zzz999yyy" 1700000000001 new_queue _)).
  vm_compute. congruence.
Defined.

End TwoAdmissions.

(** * The properties at work on three sockets and five people *)

Section Instances.
Import InMemoryQueue ProcessWorker Server Types InMemoryStorage PeopleQueries Js.
Local Open Scope Z_scope.

Lemma page_holds_at_most_pageSize_witness :
  (length (page_of (H := Sample.runtime) (Query.mk 3 2 None None None) Sample.five_people)
   ≤ 2)%nat.
Proof.
  apply (page_holds_at_most_pageSize (H := Sample.runtime)
           (Query.mk 3 2 None None None) Sample.five_people).
  vm_compute. congruence.
Defined.

Lemma pages_partition_the_fitting_people_witness :
  ∃ tp : nat,
    total_pages_of (H := Sample.runtime)
      (Query.mk 1 2 None (Some ["Greek"]) None) Sample.five_people
    = Some (Num (Z.of_nat tp)) ∧
    concat ((λ k, page_of (H := Sample.runtime)
                    (on_page (Z.of_nat (S k)) (Query.mk 1 2 None (Some ["Greek"]) None))
                    Sample.five_people) <$> seq 0 tp)
    = fitting (H := Sample.runtime) (Query.mk 1 2 None (Some ["Greek"]) None)
        Sample.five_people.
Proof.
  apply (pages_partition_the_fitting_people (H := Sample.runtime)
           (Query.mk 1 2 None (Some ["Greek"]) None) Sample.five_people).
  vm_compute. reflexivity.
Defined.

Lemma page_outside_range_is_empty_witness :
  page_of (H := Sample.runtime) (Query.mk 4 2 None None None) Sample.five_people = [].
Proof.
  apply (page_outside_range_is_empty (H := Sample.runtime)
           (Query.mk 4 2 None None None) Sample.five_people 3).
  - vm_compute. reflexivity.
  - vm_compute. reflexivity.
  - right. vm_compute. reflexivity.
Defined.

Lemma negative_page_counts_from_the_end_witness :
  page_of (H := Sample.runtime) (Query.mk (-1) 2 None None None) Sample.five_people
  = [Sample.person 1; Sample.person 2].
Proof.
  rewrite (negative_page_counts_from_the_end (H := Sample.runtime)
             (Query.mk (-1) 2 None None None) Sample.five_people 1).
  - vm_compute. reflexivity.
  - vm_compute. reflexivity.
  - vm_compute. reflexivity.
  - lia.
  - vm_compute. congruence.
Defined.

Lemma negative_pageSize_serves_all_but_the_last_witness :
  page_of (H := Sample.runtime) (Query.mk 1 (-2) None None None) Sample.five_people
  = [Sample.person 0; Sample.person 1; Sample.person 2].
Proof.
  rewrite (negative_pageSize_serves_all_but_the_last (H := Sample.runtime)
             (Query.mk 1 (-2) None None None) Sample.five_people).
  - vm_compute. reflexivity.
  - vm_compute. reflexivity.
  - vm_compute. reflexivity.
Defined.

Lemma failure_reaches_each_subscriber_once_witness :
  let st := Server.run [Connection "s1"; Connection "s2"; ProcessRequest "s1" "a"] boot in
  received "s2" "process-result" (state_after (on_worker_error "a" "boom") st)
  = [mkProcessResult "a" "error" "Error: boom"].
Proof.
  intros st.
  assert ("s2" ∈ connected st) as Hin by (apply (bool_decide_unpack _); vm_compute; exact I).
  exact (proj2 (failure_reaches_each_subscriber_once st "a" "boom" "s2" Hin)).
Defined.

Lemma completion_skips_absent_socket_witness :
  let st := Server.run [Connection "s1"; ProcessRequest "s1" "a"] boot in
  let response := reply (mkWorkerMessage "a" (JsObject [])) "2023-11-14T22:13:22.000Z" in
  received "late" "process-result"
    (Server.run [Connection "late"] (state_after (on_worker_message 0 response) st))
  = [].
Proof.
  intros st response.
  assert ("late" ∉ connected st) as Hout
    by (apply (bool_decide_unpack _); vm_compute; exact I).
  exact (completion_skips_absent_socket st 0 response "late" Hout).
Defined.

Lemma dispatched_task_is_completed_witness :
  let st := state_after (on_queue (enqueue "a" (JsObject []))) boot in
  let dispatched := state_after (handle (ProcessRequest "s1" "a")) st in
  let answered :=
    state_after (handle (WorkerMessageEv 0 (reply (mkWorkerMessage "a" (JsObject [])) "T")))
      dispatched in
  queue answered !! "a"
  = Some (mkItem completed (JsObject []) (Some "Processed result for request a at T") None).
Proof.
  intros st dispatched answered.
  refine (proj1 (proj2 (dispatched_task_is_completed st "s1" "a"
                          (mkItem pending (JsObject []) None None) "T" _))).
  vm_compute. reflexivity.
Defined.

Lemma stats_add_up_witness :
  let changes :=
    [ProcessRequests.Created "a"; ProcessRequests.Created "b";
     ProcessRequests.Result (mkProcessResult "a" "completed" "done");
     ProcessRequests.Result (mkProcessResult "b" "error" "Error: boom")] in
  ProcessRequests.stats (ProcessRequests.after changes) = ProcessRequests.mkStats 2 0 1 1 ∧
  (ProcessRequests.pending (ProcessRequests.stats (ProcessRequests.after changes))
   + ProcessRequests.completed (ProcessRequests.stats (ProcessRequests.after changes))
   + ProcessRequests.error (ProcessRequests.stats (ProcessRequests.after changes))
   = ProcessRequests.total (ProcessRequests.stats (ProcessRequests.after changes)))%nat.
Proof.
  intros changes. split; [vm_compute; reflexivity|].
  apply (stats_add_up changes).
  unfold changes.
  constructor; [exact I|]. constructor; [exact I|].
  constructor; [by left|]. constructor; [by right|]. constructor.
Defined.

End Instances.

(** * Result and error against the calls made *)

Section ResultErrorHistory.
Import InMemoryQueue CallTargets.
Implicit Types (q : gmap string Item) (i : string) (it : Item) (c : Call).

Lemma since_admission_snoc i (cs : list Call) c :
  since_admission i (cs ++ [c]) =
    match c with
    | CEnqueue j _ =>
        if decide (j = i) then [] else since_admission i cs ++ [c]
    | CCleanup => []
    | CInitialize | CGetStatus _ | CComplete _ _ | CFail _ _ => since_admission i cs ++ [c]
    end.
Proof. unfold since_admission. by rewrite foldl_snoc. Qed.

(** What the record of an id holds, read off the calls made since the
    id was admitted: a result exactly when [complete] was called on the
    id, an error exactly when [fail] was. *)
Lemma fields_follow_calls (cs : list Call) i it :
  run cs new_queue !! i = Some it →
  (is_Some (result it) ↔ ∃ r, CComplete i r ∈ since_admission i cs) ∧
  (is_Some (error it) ↔ ∃ e, CFail i e ∈ since_admission i cs).
Proof.
  revert it. induction cs as [|c cs IH] using rev_ind; intros it Hit.
  { unfold run, new_queue in Hit. simpl in Hit. by rewrite lookup_empty in Hit. }
  rewrite run_snoc, state_after_call in Hit. rewrite since_admission_snoc.
  destruct c as [|j d|j|j r|j e|].
  - destruct (IH it Hit) as [Hr He]. rewrite Hr, He.
    setoid_rewrite elem_of_app. setoid_rewrite list_elem_of_singleton. naive_solver.
  - case_decide as Hj; [subst j|].
    + rewrite lookup_insert_eq in Hit. injection Hit as <-. simpl.
      setoid_rewrite elem_of_nil. rewrite <-!not_eq_None_Some. naive_solver.
    + rewrite lookup_insert_ne in Hit by done.
      destruct (IH it Hit) as [Hr He]. rewrite Hr, He.
      setoid_rewrite elem_of_app. setoid_rewrite list_elem_of_singleton. naive_solver.
  - destruct (IH it Hit) as [Hr He]. rewrite Hr, He.
    setoid_rewrite elem_of_app. setoid_rewrite list_elem_of_singleton. naive_solver.
  - destruct (decide (j = i)) as [->|Hj].
    + destruct (run cs new_queue !! i) as [it0|] eqn:Hi; simpl in Hit;
        [|by rewrite Hi in Hit].
      rewrite lookup_insert_eq in Hit. injection Hit as <-. simpl.
      destruct (IH it0 eq_refl) as [_ He]. rewrite He.
      setoid_rewrite elem_of_app. setoid_rewrite list_elem_of_singleton.
      split; [|naive_solver]. split; [intros _; exists r; by right|by eexists].
    + assert (run cs new_queue !! i = Some it) as Hit'.
      { destruct (run cs new_queue !! j); simpl in Hit; [|done].
        by rewrite lookup_insert_ne in Hit. }
      destruct (IH it Hit') as [Hr He]. rewrite Hr, He.
      setoid_rewrite elem_of_app. setoid_rewrite list_elem_of_singleton. naive_solver.
  - destruct (decide (j = i)) as [->|Hj].
    + destruct (run cs new_queue !! i) as [it0|] eqn:Hi; simpl in Hit;
        [|by rewrite Hi in Hit].
      rewrite lookup_insert_eq in Hit. injection Hit as <-. simpl.
      destruct (IH it0 eq_refl) as [Hr _]. rewrite Hr.
      setoid_rewrite elem_of_app. setoid_rewrite list_elem_of_singleton.
      split; [naive_solver|]. split; [intros _; exists e; by right|by eexists].
    + assert (run cs new_queue !! i = Some it) as Hit'.
      { destruct (run cs new_queue !! j); simpl in Hit; [|done].
        by rewrite lookup_insert_ne in Hit. }
      destruct (IH it Hit') as [Hr He]. rewrite Hr, He.
      setoid_rewrite elem_of_app. setoid_rewrite list_elem_of_singleton. naive_solver.
  - by rewrite lookup_empty in Hit.
Qed.

(** C4, as the code has it: after every sequence of calls on a new
    queue, a record whose status is pending or processing has neither
    result nor error; and result and error are never both set unless
    both [complete] and [fail] were called on the id since it was last
    enqueued: the result is set exactly when [complete] was called on
    the id since then, the error exactly when [fail] was. *)
Theorem result_and_error_follow_their_calls (cs : list Call) i it :
  run cs new_queue !! i = Some it →
  (terminal (status it) = false → result it = None ∧ error it = None) ∧
  (is_Some (result it) ↔ ∃ r, CComplete i r ∈ since_admission i cs) ∧
  (is_Some (error it) ↔ ∃ e, CFail i e ∈ since_admission i cs) ∧
  (is_Some (result it) ∧ is_Some (error it) →
   (∃ r, CComplete i r ∈ since_admission i cs) ∧ (∃ e, CFail i e ∈ since_admission i cs)).
Proof.
  intros Hit. destruct (fields_follow_calls cs i it Hit) as [Hr He].
  split; [|split; [exact Hr|split; [exact He|]]].
  - pose proof (run_keeps_settled_fields cs new_queue (map_Forall_empty _) i it Hit) as Hs.
    unfold settled_fields in Hs. destruct (status it); simpl; try done.
  - intros [Hres Herr]. split; [by apply Hr|by apply He].
Qed.

Lemma result_and_error_follow_their_calls_witness :
  let cs := [CEnqueue "a" JsUndefined; CFail "a" "old"; CEnqueue "a" JsUndefined;
             CComplete "a" "ok"] in
  run cs new_queue !! "a" = Some (mkItem completed JsUndefined (Some "ok") None) ∧
  since_admission "a" cs = [CComplete "a" "ok"] ∧
  (is_Some (error (mkItem completed JsUndefined (Some "ok") None)) ↔
   ∃ e, CFail "a" e ∈ since_admission "a" cs).
Proof.
  intros cs. split; [vm_compute; reflexivity|]. split; [vm_compute; reflexivity|].
  apply (result_and_error_follow_their_calls cs "a"
           (mkItem completed JsUndefined (Some "ok") None)).
  vm_compute. reflexivity.
Defined.

End ResultErrorHistory.

(** * The release of a worker *)

Section WorkerRelease.
Import InMemoryQueue ProcessWorker Server WorkerThreads.
Implicit Types (world : World) (w : nat) (i : string).

(** C7: a worker that was dispatched for an id is released and no more
    tracked under that id once its outcome is handled, whether it
    answered (with the reply of [processWorker] to the message for the
    id) or threw.  After an answer the server itself called [terminate]
    on it; after an error the thread has ended with the exception that
    the runtime reports. *)
Theorem worker_is_released_after_its_outcome world w i :
  listeners (WorkerThreads.server world) !! w = Some i →
  (∀ data iso,
     let world' :=
       state_after (report w (Answers (reply (mkWorkerMessage i data) iso))) world in
     released w world' = true ∧
     is_terminated w (WorkerThreads.server world') = true ∧
     is_tracked i (WorkerThreads.server world') = false) ∧
  (∀ message,
     let world' := state_after (report w (Throws message)) world in
     released w world' = true ∧
     w ∈ died world' ∧
     is_tracked i (WorkerThreads.server world') = false).
Proof.
  intros Hw. split.
  - intros data iso world'. subst world'. unfold state_after, report.
    rewrite (handle_worker_message _ _ _ i Hw), on_worker_message_eq. simpl.
    unfold released, is_terminated, is_tracked. simpl.
    assert (w ∈ terminated (WorkerThreads.server world) ++ [w]) as Hin
      by (apply elem_of_app; right; by apply list_elem_of_singleton).
    rewrite (bool_decide_eq_true_2 _ Hin), lookup_delete_eq. simpl.
    repeat split; try done; apply bool_decide_eq_false; by intros [? ?].
  - intros message world'. subst world'. unfold state_after, report.
    rewrite (handle_worker_error _ _ _ i Hw), on_worker_error_eq. simpl.
    unfold released, is_tracked. simpl.
    assert (w ∈ ({[w]} ∪ died world : gset nat)) as Hin by set_solver.
    rewrite (bool_decide_eq_true_2 _ Hin), lookup_delete_eq, orb_true_r.
    repeat split; try done; apply bool_decide_eq_false; by intros [? ?].
Qed.

Lemma worker_is_released_after_its_outcome_witness :
  let st :=
    Server.run [Connection "s1"; ProcessRequest "s1" "a"]
      (state_after (on_queue (enqueue "a" (JsObject []))) boot) in
  let world := mkWorld st ∅ in
  let crashed := state_after (report 0 (Throws "boom")) world in
  is_tracked "a" st = true ∧
  released 0 world = false ∧
  released 0 crashed = true ∧
  is_tracked "a" (WorkerThreads.server crashed) = false.
Proof.
  intros st world crashed.
  split; [vm_compute; reflexivity|]. split; [vm_compute; reflexivity|].
  assert (listeners (WorkerThreads.server world) !! 0 = Some "a") as Hw
    by (vm_compute; reflexivity).
  destruct (proj2 (worker_is_released_after_its_outcome world 0 "a" Hw) "boom")
    as (Hreleased & _ & Htracked).
  split; [exact Hreleased|exact Htracked].
Defined.

End WorkerRelease.

(** * The id of an admission *)

Section FreshIds.
Import InMemoryQueue Api.
Local Open Scope Z_scope.
Implicit Types (q : gmap string Item) (now date : Z).


End FreshIds.
